(** * PDF runsheet converter: the chunking, extraction-retry, CSV-merge and
      fill-down pipeline of [src/services/geminiService.ts]

    The development embeds the TypeScript service shallowly:
    - a JavaScript string is the list of its UTF-16 code units;
    - the regular expressions of the source are terms of a small regex
      syntax run by a backtracking matcher, with [String.prototype.replace]
      and [RegExp.prototype.test] on top of it;
    - arrays are lists, an array element that is [undefined] (a hole left
      by an assignment past the end) is [None];
    - the asynchronous, throwing code is a writer-and-error monad whose log
      records the requests sent, the back-off sleeps and the progress
      messages. *)

From Stdlib Require Import NArith Ascii String Lia.
From stdpp Require Import base tactics option list.

Set Default Proof Using "Type".

Local Open Scope nat_scope.
Local Open Scope list_scope.

(* ===================================================================== *)
(** * JavaScript strings *)
(* ===================================================================== *)

Module JsString.

(** A string is its sequence of UTF-16 code units. *)
Abbreviation jsstring := (list N).

Fixpoint js (s : string) : jsstring :=
  match s with
  | EmptyString => []
  | String c s' => N_of_ascii c :: js s'
  end.

(** Code units the source mentions explicitly. *)
Definition LF : N := 10.
Definition COMMA : N := 44.
Definition QUOTE : N := 34.
Definition BACKTICK : N := 96.

(** [WhiteSpace] and [LineTerminator] of ECMAScript: what [trim] strips. *)
Definition is_ws (c : N) : bool :=
  ((9 <=? c) && (c <=? 13) || (c =? 32) || (c =? 160) || (c =? 5760)
   || (8192 <=? c) && (c <=? 8202) || (c =? 8232) || (c =? 8233)
   || (c =? 8239) || (c =? 8287) || (c =? 12288) || (c =? 65279))%N.

Fixpoint dropWhile {A} (p : A -> bool) (l : list A) : list A :=
  match l with
  | [] => []
  | x :: l' => if p x then dropWhile p l' else l
  end.

(** [s.trimStart()], [s.trimEnd()] and [s.trim()]. *)
Definition trimStart (s : jsstring) : jsstring := dropWhile is_ws s.
Definition trimEnd (s : jsstring) : jsstring :=
  reverse (dropWhile is_ws (reverse s)).
Definition trim (s : jsstring) : jsstring := trimEnd (trimStart s).

(** Strict equality of strings, [a === b]. *)
Definition str_eqb (a b : jsstring) : bool := bool_decide (a = b).

(** A string is truthy when it is not empty. *)
Definition truthy (s : jsstring) : bool :=
  match s with [] => false | _ :: _ => true end.

(** [s.startsWith(p)]. *)
Fixpoint startsWith (p s : jsstring) : bool :=
  match p, s with
  | [], _ => true
  | _ :: _, [] => false
  | a :: p', b :: s' => (a =? b)%N && startsWith p' s'
  end.

(** [s.includes(p)]: [p] occurs at some position of [s]. *)
Fixpoint includes (s p : jsstring) : bool :=
  startsWith p s ||
  match s with
  | [] => false
  | _ :: s' => includes s' p
  end.

(** [s.split(sep)] for a one-unit separator: never empty, [''.split(',')]
    is [['']]. *)
Fixpoint split (sep : N) (s : jsstring) : list jsstring :=
  match s with
  | [] => [[]]
  | c :: s' =>
      if (c =? sep)%N then [] :: split sep s'
      else match split sep s' with
           | f :: fs => (c :: f) :: fs
           | [] => [[c]]
           end
  end.

(** [a.join(sep)]: an [undefined] element (here [None]) is rendered as the
    empty string. *)
Definition cell_text (c : option jsstring) : jsstring := default [] c.

Fixpoint join (sep : jsstring) (a : list (option jsstring)) : jsstring :=
  match a with
  | [] => []
  | [c] => cell_text c
  | c :: a' => cell_text c ++ sep ++ join sep a'
  end.

End JsString.
Export JsString.

(* ===================================================================== *)
(** * Regular expressions *)
(* ===================================================================== *)

Module Regex.

(** The fragment of the regex syntax the source uses: literal characters,
    sequence, alternation [a|b], the greedy option [a?], and the
    assertions [^] and [$] (no [m] flag, so start and end of input). *)
Inductive regex : Type :=
  | Eps : regex
  | Chr : N -> regex
  | Seq : regex -> regex -> regex
  | Alt : regex -> regex -> regex
  | Opt : regex -> regex
  | Bol : regex
  | Eol : regex.

(** The literal string [s] as a sequence of characters. *)
Fixpoint Lit (s : jsstring) : regex :=
  match s with
  | [] => Eps
  | c :: s' => Seq (Chr c) (Lit s')
  end.

(** [Canonicalize] of ECMAScript for the [i] flag without the [u] flag: a
    code unit is compared through its upper-case form, and a code unit
    from 128 on is never mapped below 128. The patterns of the source are
    ASCII, so only the ASCII letters have to be folded: no code unit from
    128 on can meet an ASCII pattern character. *)
Definition canonicalize (c : N) : N :=
  if ((97 <=? c) && (c <=? 122))%N then (c - 32)%N else c.

Definition chr_match (ignoreCase : bool) (p c : N) : bool :=
  if ignoreCase then (canonicalize p =? canonicalize c)%N else (p =? c)%N.

(** Backtracking matcher in continuation-passing style. [pos] is the index
    of the next code unit and [rest] the input from there on; the result
    is the end index of the match found first, in the order of priority
    of the ECMAScript semantics (left alternative first, option greedy). *)
Fixpoint rmatch (ic : bool) (r : regex) (pos : nat) (rest : jsstring)
    (k : nat -> jsstring -> option nat) : option nat :=
  match r with
  | Eps => k pos rest
  | Chr p =>
      match rest with
      | c :: rest' => if chr_match ic p c then k (S pos) rest' else None
      | [] => None
      end
  | Seq a b => rmatch ic a pos rest (fun pos' rest' => rmatch ic b pos' rest' k)
  | Alt a b =>
      match rmatch ic a pos rest k with
      | Some e => Some e
      | None => rmatch ic b pos rest k
      end
  | Opt a =>
      match rmatch ic a pos rest k with
      | Some e => Some e
      | None => k pos rest
      end
  | Bol => match pos with 0 => k pos rest | S _ => None end
  | Eol => match rest with [] => k pos rest | _ :: _ => None end
  end.

(** A match attempt at index [pos]: the end index, if the regex matches
    there. *)
Definition match_at (ic : bool) (r : regex) (pos : nat) (rest : jsstring)
    : option nat :=
  rmatch ic r pos rest (fun e _ => Some e).

(** The leftmost match from index [pos] on: its start and end index. *)
Fixpoint search (ic : bool) (r : regex) (pos : nat) (rest : jsstring)
    : option (nat * nat) :=
  match match_at ic r pos rest with
  | Some e => Some (pos, e)
  | None =>
      match rest with
      | [] => None
      | _ :: rest' => search ic r (S pos) rest'
      end
  end.

(** [re.test(s)] for a regex without the [g] flag. *)
Definition test (ic : bool) (r : regex) (s : jsstring) : bool :=
  match search ic r 0 s with Some _ => true | None => false end.

(** [s.replace(re, '')] for a regex without the [g] flag: the leftmost
    match is cut out. *)
Definition replace_first (ic : bool) (r : regex) (s : jsstring) : jsstring :=
  match search ic r 0 s with
  | Some (b, e) => take b s ++ drop e s
  | None => s
  end.

(** [s.replace(re, '')] for a regex with the [g] flag: every match, found
    from left to right, is cut out. [skip] counts the code units of the
    current match that are still to be dropped; after an empty match the
    search moves on by one code unit, as [lastIndex] does. *)
Fixpoint replace_all_from (ic : bool) (r : regex) (pos skip : nat)
    (rest : jsstring) : jsstring :=
  match skip with
  | S skip' =>
      match rest with
      | [] => []
      | _ :: rest' => replace_all_from ic r (S pos) skip' rest'
      end
  | 0 =>
      match rest with
      | [] => []
      | c :: rest' =>
          match match_at ic r pos rest with
          | Some e =>
              match e - pos with
              | 0 => c :: replace_all_from ic r (S pos) 0 rest'
              | S n => replace_all_from ic r (S pos) n rest'
              end
          | None => c :: replace_all_from ic r (S pos) 0 rest'
          end
      end
  end.

Definition replace_all (ic : bool) (r : regex) (s : jsstring) : jsstring :=
  replace_all_from ic r 0 0 s.

End Regex.
Export Regex.

(* ===================================================================== *)
(** * Effects: the log of a run and the error it may end with *)
(* ===================================================================== *)

Module Effects.

(** The progress messages handed to [onProgressUpdate]. [Processing a b n]
    is the message [Processing pages a-b of n...]. *)
Inductive progress : Type :=
  | Loading
  | Processing (first last total : nat)
  | Combining
  | Correcting.

(** What a run does to the outside, in order: a progress message, a
    [generateContent] request for the pages [pages] (attempt [attempt] of
    this chunk), a [setTimeout] sleep of [ms] milliseconds. The console
    diagnostics ([console.error], [console.warn]) are not recorded. *)
Inductive event : Type :=
  | Progress (m : progress)
  | Request (pages : list nat) (attempt : nat)
  | Sleep (ms : nat).

(** A computation logs events and either throws [new Error(message)],
    recorded by its message, or returns. *)
Definition M (A : Type) : Type := list event * (jsstring + A).

Definition ret {A} (a : A) : M A := ([], inr a).
Definition throw {A} (message : jsstring) : M A := ([], inl message).
Definition emit (e : event) : M unit := ([e], inr tt).

Definition bind {A B} (m : M A) (f : A -> M B) : M B :=
  match m with
  | (log, inl err) => (log, inl err)
  | (log, inr a) => let '(log', r) := f a in (log ++ log', r)
  end.

Declare Scope js_scope.
Delimit Scope js_scope with js.
Notation "x <- m ;; k" := (bind m (fun x => k))
  (at level 100, m at next level, right associativity) : js_scope.
Notation "m ;; k" := (bind m (fun _ => k))
  (at level 100, right associativity) : js_scope.

Definition log_of {A} (m : M A) : list event := fst m.
Definition result_of {A} (m : M A) : jsstring + A := snd m.

(** The requests of a log, taken out in order. *)
Definition is_request (e : event) : bool :=
  match e with Request _ _ => true | _ => false end.
Definition requests (log : list event) : list event := List.filter is_request log.

(** The messages of the errors the service throws, under the names the
    specification gives to the kinds of error. *)
Definition ConfigurationError : jsstring :=
  js "API_KEY is not configured in your environment.".
Definition InvalidDocumentError : jsstring :=
  js "The PDF file is empty or corrupted.".
Definition ServiceBusyError : jsstring :=
  js "The AI model is busy. Please try again in a moment.".
Definition ExtractionFailedError : jsstring :=
  js "Failed to convert a page. The file may be corrupted or in an unsupported format.".
Definition EmptyResultError : jsstring :=
  js "Conversion resulted in empty or incomplete data. The PDF might not contain a valid runsheet.".
Definition UnknownError : jsstring :=
  js "An unknown error occurred during conversion.".

End Effects.
Export Effects.

Local Open Scope js_scope.

(* ===================================================================== *)
(** * ExtractionClient: [callGeminiWithRetry] *)
(* ===================================================================== *)

Definition MAX_RETRIES : nat := 3.
Definition INITIAL_RETRY_DELAY_MS : nat := 1000.
Definition CHUNK_SIZE : nat := 20.

(** What [generateContent] does on one attempt: it resolves with a response
    whose [text] may be [undefined], or it throws, an [Error] with a
    message or any other value, taken with its [String(...)] form. *)
Inductive thrown : Type :=
  | ThrownError (message : jsstring)
  | ThrownOther (asString : jsstring).

Inductive attempt_result : Type :=
  | Responded (text : option jsstring)
  | Threw (e : thrown).

(** [error instanceof Error ? error : new Error(String(error))], by the
    message of the resulting [Error]. *)
Definition as_Error (e : thrown) : jsstring :=
  match e with
  | ThrownError message => message
  | ThrownOther asString => asString
  end.

(** [/^```(?:csv)?\n?/] and [/```$/]. *)
Definition FENCE : jsstring := [BACKTICK; BACKTICK; BACKTICK].
Definition leadingFence : regex :=
  Seq Bol (Seq (Lit FENCE) (Seq (Opt (Lit (js "csv"))) (Opt (Chr LF)))).
Definition trailingFence : regex := Seq (Lit FENCE) Eol.

(** [text.replace(/^```(?:csv)?\n?/, '').replace(/```$/, '').trim()]. *)
Definition stripFences (text : jsstring) : jsstring :=
  trim (replace_first false trailingFence (replace_first false leadingFence text)).

Section ExtractionClient.

(** [String.prototype.toLowerCase], whose Unicode case tables belong to the
    platform. *)
Variable toLowerCase : jsstring -> jsstring.

(** [errorMessage.includes('internal') || errorMessage.includes('500')]
    on [(message || '').toLowerCase()]. *)
Definition isTransient (message : jsstring) : bool :=
  let errorMessage := toLowerCase message in
  includes errorMessage (js "internal") || includes errorMessage (js "500").

(** The statements after the loop: the error thrown to the caller. *)
Definition giveUp (lastError : option jsstring) : M jsstring :=
  let finalError := default UnknownError lastError in
  if isTransient finalError then throw ServiceBusyError
  else throw ExtractionFailedError.

(** The service's answers to the attempts on this chunk, and the pages the
    chunk holds. *)
Variable ai : nat -> attempt_result.
Variable pages : list nat.

(** The [for] loop over [attempt]; [trips] is the number of iterations
    left before [attempt < MAX_RETRIES] fails, [MAX_RETRIES - attempt]. *)
Fixpoint retryLoop (trips attempt : nat) (lastError : option jsstring)
    : M jsstring :=
  match trips with
  | 0 => giveUp lastError
  | S trips' =>
      emit (Request pages attempt) ;;
      match ai attempt with
      | Responded response_text =>
          let text := default [] response_text in
          ret (stripFences text)
      | Threw error =>
          let lastError := as_Error error in
          if isTransient lastError then
            if attempt <? MAX_RETRIES - 1 then
              let delay := INITIAL_RETRY_DELAY_MS * 2 ^ attempt in
              emit (Sleep delay) ;;
              retryLoop trips' (S attempt) (Some lastError)
            else retryLoop trips' (S attempt) (Some lastError)
          else giveUp (Some lastError)
      end
  end.

Definition callGeminiWithRetry : M jsstring := retryLoop MAX_RETRIES 0 None.

End ExtractionClient.

(* ===================================================================== *)
(** * FillDownCorrector: [applyFillDownLogic] *)
(* ===================================================================== *)

Module FillDown.

(** A data row is the array of the fields of its line; a field is [None]
    where the array has a hole. *)
Abbreviation row := (list (option jsstring)).

(** [a[i]], [undefined] out of range. *)
Definition at_index (a : row) (i : nat) : option jsstring :=
  default None (a !! i).

(** [a[i] = v]: past the end the array grows, leaving holes. *)
Fixpoint assign (a : row) (i : nat) (v : option jsstring) : row :=
  match i, a with
  | 0, [] => [v]
  | 0, _ :: a' => v :: a'
  | S i', [] => None :: assign [] i' v
  | S i', x :: a' => x :: assign a' i' v
  end.

(** [/^"|"$/g]. *)
Definition quoteRegex : regex :=
  Alt (Seq Bol (Chr QUOTE)) (Seq (Chr QUOTE) Eol).

(** [s?.trim().replace(/^"|"$/g, '') || '']. *)
Definition unquote (s : option jsstring) : jsstring :=
  match s with
  | None => []
  | Some s => replace_all false quoteRegex (trim s)
  end.

(** [a.indexOf(x)], [None] for [-1]. *)
Fixpoint indexOf (a : list jsstring) (x : jsstring) : option nat :=
  match a with
  | [] => None
  | y :: a' => if str_eqb y x then Some 0 else S <$> indexOf a' x
  end.

Section Columns.

Variables runNumberIndex pickupTimeIndex pickupAddressIndex : nat.

(** The body of the loop at index [i]; the rows are separate arrays, so
    writing to [currentRow] changes row [i] of [dataRows] only. *)
Definition fillDownStep (i : nat) (dataRows : list row) : list row :=
  match dataRows !! (i - 1), dataRows !! i with
  | Some prevRow, Some currentRow =>
      if (length prevRow <=? runNumberIndex)
         || (length currentRow <=? runNumberIndex) then dataRows
      else
        let prevRunNumber := unquote (at_index prevRow runNumberIndex) in
        let currentRunNumber := unquote (at_index currentRow runNumberIndex) in
        if truthy currentRunNumber && str_eqb currentRunNumber prevRunNumber
        then
          let currentPickupTime := unquote (at_index currentRow pickupTimeIndex) in
          let currentPickupAddress :=
            unquote (at_index currentRow pickupAddressIndex) in
          if negb (truthy currentPickupTime) || negb (truthy currentPickupAddress)
          then
            if Nat.max pickupTimeIndex pickupAddressIndex <? length prevRow
            then
              let currentRow1 :=
                assign currentRow pickupTimeIndex
                  (at_index prevRow pickupTimeIndex) in
              let currentRow2 :=
                assign currentRow1 pickupAddressIndex
                  (at_index prevRow pickupAddressIndex) in
              <[i := currentRow2]> dataRows
            else dataRows
          else dataRows
        else dataRows
  | _, _ => dataRows
  end.

(** [for (let i = 1; i < dataRows.length; i++)], with [trips] iterations
    left. *)
Fixpoint fillDownLoop (trips i : nat) (dataRows : list row) : list row :=
  match trips with
  | 0 => dataRows
  | S trips' => fillDownLoop trips' (S i) (fillDownStep i dataRows)
  end.

End Columns.

Definition splitRow (line : jsstring) : row := Some <$> split COMMA line.

Definition applyFillDownLogic (csvLines : list jsstring) : list jsstring :=
  if length csvLines <=? 1 then csvLines
  else
    match csvLines with
    | [] => csvLines
    | line0 :: _ =>
        let header := (fun s => unquote (Some s)) <$> split COMMA line0 in
        match indexOf header (js "Run Num"),
              indexOf header (js "Pick Up Time"),
              indexOf header (js "Pickup Address") with
        | Some runNumberIndex, Some pickupTimeIndex, Some pickupAddressIndex =>
            let dataRows := splitRow <$> drop 1 csvLines in
            let dataRows' :=
              fillDownLoop runNumberIndex pickupTimeIndex pickupAddressIndex
                (length dataRows - 1) 1 dataRows in
            let processedDataLines := join [COMMA] <$> dataRows' in
            line0 :: processedDataLines
        | _, _, _ => csvLines
        end
    end.

End FillDown.
Export FillDown.

(* ===================================================================== *)
(** * CsvMerger and the pipeline: [convertPdfToCsv] *)
(* ===================================================================== *)

(** [/^"Date","Run Num"/i]. *)
Definition HEADER_PATTERN : jsstring :=
  [QUOTE] ++ js "Date" ++ [QUOTE; COMMA; QUOTE] ++ js "Run Num" ++ [QUOTE].
Definition headerRegex : regex := Seq Bol (Lit HEADER_PATTERN).

(** [chunkCsv.split('\n').filter(line => line.trim() !== '')]. *)
Definition nonBlankLines (chunkCsv : jsstring) : list jsstring :=
  List.filter (fun line => negb (str_eqb (trim line) [])) (split LF chunkCsv).

(** The callback of [csvChunkResults.forEach], on the lines collected so
    far. *)
Definition mergeChunk (finalCsvLines : list jsstring) (index : nat)
    (chunkCsv : jsstring) : list jsstring :=
  let lines := nonBlankLines chunkCsv in
  match lines with
  | [] => finalCsvLines
  | line0 :: _ =>
      if index =? 0 then finalCsvLines ++ lines
      else if test true headerRegex line0 then finalCsvLines ++ drop 1 lines
      else finalCsvLines ++ lines
  end.

Fixpoint mergeFrom (index : nat) (csvChunkResults : list jsstring)
    (finalCsvLines : list jsstring) : list jsstring :=
  match csvChunkResults with
  | [] => finalCsvLines
  | chunkCsv :: later =>
      mergeFrom (S index) later (mergeChunk finalCsvLines index chunkCsv)
  end.

(** The lines in [finalCsvLines] once the [forEach] is over. *)
Definition merge (csvChunkResults : list jsstring) : list jsstring :=
  mergeFrom 0 csvChunkResults [].

Section Pipeline.

Variable toLowerCase : jsstring -> jsstring.

(** The value of [process.env.API_KEY], the number of pages of the loaded
    document, and the answers of the service to the attempts on the chunk
    that starts at a given page. Decoding and parsing the file are
    pdf-lib's; the model starts from the loaded document. *)
Variable apiKey : option jsstring.
Variable pageCount : nat.
Variable service : nat -> nat -> attempt_result.

(** [Array.from({ length: endPage - startPage }, (_, k) => startPage + k)]:
    the pages copied into the sub-document, in this order. *)
Definition pageIndices (startPage endPage : nat) : list nat :=
  seq startPage (endPage - startPage).

(** [for (let i = 0; i < pageCount; i += CHUNK_SIZE)]. The loop is run on
    [fuel]; [chunkLoop_fuel] shows that [pageCount] iterations are never
    used up. *)
Fixpoint chunkLoop (fuel i : nat) (csvChunkResults : list jsstring)
    : M (list jsstring) :=
  match fuel with
  | 0 => ret csvChunkResults
  | S fuel' =>
      if i <? pageCount then
        let startPage := i in
        let endPage := Nat.min (i + CHUNK_SIZE) pageCount in
        emit (Progress (Processing (startPage + 1) endPage pageCount)) ;;
        chunkCsv <-
          callGeminiWithRetry toLowerCase (service startPage)
            (pageIndices startPage endPage) ;;
        chunkLoop fuel' (i + CHUNK_SIZE)
          (if truthy chunkCsv then csvChunkResults ++ [chunkCsv]
           else csvChunkResults)
      else ret csvChunkResults
  end.

Definition convertPdfToCsv : M jsstring :=
  if negb (truthy (default [] apiKey)) then throw ConfigurationError
  else
    emit (Progress Loading) ;;
    if pageCount =? 0 then throw InvalidDocumentError
    else
      csvChunkResults <- chunkLoop pageCount 0 [] ;;
      emit (Progress Combining) ;;
      let finalCsvLines := merge csvChunkResults in
      if length finalCsvLines <? 2 then throw EmptyResultError
      else
        emit (Progress Correcting) ;;
        let correctedCsvLines := applyFillDownLogic finalCsvLines in
        ret (join [LF] (Some <$> correctedCsvLines)).

End Pipeline.

(* ===================================================================== *)
(** * Base64: [btoa], [atob] and the two converters of the service *)
(* ===================================================================== *)

Module Base64.

(** The base64 alphabet of RFC 4648: the character of a 6-bit value, and
    the value of a character. *)
Definition b64char (v : N) : N :=
  (if v <? 26 then 65 + v
   else if v <? 52 then 97 + (v - 26)
   else if v <? 62 then 48 + (v - 52)
   else if v =? 62 then 43
   else 47)%N.

Definition b64val (c : N) : option N :=
  (if (65 <=? c) && (c <=? 90) then Some (c - 65)
   else if (97 <=? c) && (c <=? 122) then Some (c - 97 + 26)
   else if (48 <=? c) && (c <=? 57) then Some (c - 48 + 52)
   else if c =? 43 then Some 62
   else if c =? 47 then Some 63
   else None)%N.

Definition PAD : N := 61.

(** Base64 encoding of a sequence of bytes, three bytes to four
    characters, padded with [=]. *)
Fixpoint b64encode (bytes : list N) : jsstring :=
  match bytes with
  | [] => []
  | [a] =>
      [b64char (a / 4); b64char ((a mod 4) * 16); PAD; PAD]%N
  | [a; b] =>
      [b64char (a / 4); b64char ((a mod 4) * 16 + b / 16);
       b64char ((b mod 16) * 4); PAD]%N
  | a :: b :: c :: rest =>
      (b64char (a / 4) :: b64char ((a mod 4) * 16 + b / 16)
       :: b64char ((b mod 16) * 4 + c / 64) :: b64char (c mod 64)
       :: b64encode rest)%N
  end.

(** [btoa(data)]: an [InvalidCharacterError], here [None], when a code
    unit is above 255; the base64 encoding of the code units otherwise. *)
Definition btoa (data : jsstring) : option jsstring :=
  if forallb (fun c => (c <=? 255)%N) data then Some (b64encode data)
  else None.

(** ASCII white space of the Infra standard: tab, line feed, form feed,
    carriage return, space. *)
Definition is_ascii_ws (c : N) : bool :=
  ((c =? 9) || (c =? 10) || (c =? 12) || (c =? 13) || (c =? 32))%N.

(** One or two [=] taken off the end. *)
Definition dropPadding (data : jsstring) : jsstring :=
  match reverse data with
  | p :: q :: rest =>
      if (p =? PAD)%N then
        if (q =? PAD)%N then reverse rest else reverse (q :: rest)
      else data
  | [p] => if (p =? PAD)%N then [] else data
  | [] => data
  end.

Fixpoint b64values (data : jsstring) : option (list N) :=
  match data with
  | [] => Some []
  | c :: rest =>
      match b64val c, b64values rest with
      | Some v, Some vs => Some (v :: vs)
      | _, _ => None
      end
  end.

(** The bytes of a sequence of 6-bit values: 24 bits give three bytes;
    of 12 bits left over the last 4 are dropped, of 18 the last 2. *)
Fixpoint b64bytes (values : list N) : list N :=
  match values with
  | v1 :: v2 :: v3 :: v4 :: rest =>
      (v1 * 4 + v2 / 16 :: (v2 mod 16) * 16 + v3 / 4 :: (v3 mod 4) * 64 + v4
       :: b64bytes rest)%N
  | [v1; v2; v3] => [v1 * 4 + v2 / 16; (v2 mod 16) * 16 + v3 / 4]%N
  | [v1; v2] => [v1 * 4 + v2 / 16]%N
  | _ => []
  end.

(** [atob(data)], the forgiving base64 decoding of the HTML standard: white
    space is removed; padding is taken off when the length is a multiple
    of 4; a length that leaves the remainder 1, or a character outside the
    alphabet, is an [InvalidCharacterError], here [None]. The result is the
    string whose code units are the bytes. *)
Definition atob (data : jsstring) : option jsstring :=
  let data1 := List.filter (fun c => negb (is_ascii_ws c)) data in
  let data2 := if length data1 mod 4 =? 0 then dropPadding data1 else data1 in
  if length data2 mod 4 =? 1 then None
  else b64bytes <$> b64values data2.

(** [s.charCodeAt(i)] within the string, [String.fromCharCode(n)], and the
    conversion of a number stored into a [Uint8Array]. *)
Definition charCodeAt (s : jsstring) (i : nat) : N := default 0%N (s !! i).
Definition fromCharCode (n : N) : N := (n mod 65536)%N.
Definition toUint8 (n : N) : N := (n mod 256)%N.

(** The loop of [base64ToUint8Array], [trips] iterations from index [i]. *)
Fixpoint fillBytes (trips i : nat) (binary_string : jsstring)
    (bytes : list N) : list N :=
  match trips with
  | 0 => bytes
  | S trips' =>
      fillBytes trips' (S i) binary_string
        (<[i := toUint8 (charCodeAt binary_string i)]> bytes)
  end.

Definition base64ToUint8Array (base64 : jsstring) : option (list N) :=
  match atob base64 with
  | None => None
  | Some binary_string =>
      let len := length binary_string in
      let bytes := replicate len 0%N in
      Some (fillBytes len 0 binary_string bytes)
  end.

(** The loop of [uint8ArrayToBase64]. *)
Fixpoint appendBinary (trips i : nat) (bytes : list N) (binary : jsstring)
    : jsstring :=
  match trips with
  | 0 => binary
  | S trips' =>
      appendBinary trips' (S i) bytes
        (binary ++ [fromCharCode (default 0%N (bytes !! i))])
  end.

Definition uint8ArrayToBase64 (bytes : list N) : option jsstring :=
  let binary := [] in
  let len := length bytes in
  btoa (appendBinary len 0 bytes binary).

(** A byte array: every element below 256. *)
Definition isBytes (bytes : list N) : Prop := Forall (fun b => (b < 256)%N) bytes.

End Base64.
Export Base64.

(* ===================================================================== *)
(** * Definitions the statements are written with *)
(* ===================================================================== *)

Module Spec.

(** [s] without the prefix [p], when it has it. *)
Fixpoint stripPrefix (p s : jsstring) : option jsstring :=
  match p, s with
  | [], _ => Some s
  | _ :: _, [] => None
  | a :: p', b :: s' => if (a =? b)%N then stripPrefix p' s' else None
  end.

(** [s] without the suffix [p], when it has it. *)
Definition stripSuffix (p s : jsstring) : option jsstring :=
  reverse <$> stripPrefix (reverse p) (reverse s).

(** The response without a leading triple-backtick delimiter and the
    language tag [csv] that may follow it. *)
Definition withoutLeadingFence (s : jsstring) : jsstring :=
  match stripPrefix FENCE s with
  | Some s1 => default s1 (stripPrefix (js "csv") s1)
  | None => s
  end.

(** What the first [replace] of the source leaves: the leading fence, its
    tag and one line feed are cut. *)
Definition afterLeadingFence (s : jsstring) : jsstring :=
  match stripPrefix FENCE s with
  | Some s1 =>
      match default s1 (stripPrefix (js "csv") s1) with
      | c :: s3 => if (LF =? c)%N then s3 else c :: s3
      | [] => []
      end
  | None => s
  end.

(** The response without a trailing triple-backtick delimiter. *)
Definition withoutTrailingFence (s : jsstring) : jsstring :=
  default s (stripSuffix FENCE s).

(** What the two [replace] calls and the [trim] of the source amount to: a
    fence is cut where it is the very start or the very end of the
    response as received, and the white space is stripped after that. *)
Definition cutThenTrimmed (s : jsstring) : jsstring :=
  trim (withoutTrailingFence (withoutLeadingFence s)).

(** The response as the specification words it: the code fences that
    surround the text are removed and so is the white space that surrounds
    it, on either side of a fence. *)
Definition fenceStripped (s : jsstring) : jsstring :=
  trim (withoutTrailingFence (withoutLeadingFence (trim s))).

(** Lower case of the ASCII letters; every other code unit is kept. *)
Definition asciiLower (c : N) : N :=
  if ((65 <=? c) && (c <=? 90))%N then (c + 32)%N else c.
Definition asciiLowerCase (s : jsstring) : jsstring := asciiLower <$> s.

(** [line] starts with [p], letter case of ASCII letters ignored. *)
Fixpoint startsWithIgnoreCase (p line : jsstring) : bool :=
  match p, line with
  | [], _ => true
  | _ :: _, [] => false
  | a :: p', b :: line' =>
      (asciiLower a =? asciiLower b)%N && startsWithIgnoreCase p' line'
  end.

(** The line matches the header pattern ["Date","Run Num"]. *)
Definition isHeaderLine (line : jsstring) : bool :=
  startsWithIgnoreCase HEADER_PATTERN line.

(** What a fragment after the first one adds to the merged lines. *)
Definition keptOfLater (fragment : jsstring) : list jsstring :=
  match nonBlankLines fragment with
  | [] => []
  | line0 :: others =>
      if isHeaderLine line0 then others else line0 :: others
  end.

(** The merged lines as the specification describes them. *)
Definition mergedLines (fragments : list jsstring) : list jsstring :=
  match fragments with
  | [] => []
  | first :: later => nonBlankLines first ++ concat (keptOfLater <$> later)
  end.

(** The invariant of the merged output: line 0 is a header line, no other
    line is. *)
Definition headerOnlyFirst (lines : list jsstring) : Prop :=
  (forall line, lines !! 0 = Some line -> isHeaderLine line = true) /\
  (forall i line, 0 < i -> lines !! i = Some line -> isHeaderLine line = false).

(** Number of chunks and the pages of chunk [j] for a document of [n]
    pages. *)
Definition chunkCount (n : nat) : nat := (n + CHUNK_SIZE - 1) / CHUNK_SIZE.
Definition chunkPages (n j : nat) : list nat :=
  seq (j * CHUNK_SIZE) (Nat.min ((j + 1) * CHUNK_SIZE) n - j * CHUNK_SIZE).
Definition chunks (n : nat) : list (list nat) :=
  chunkPages n <$> seq 0 (chunkCount n).

(** The chunks handed to the extraction client, in order: each call opens
    with its attempt 0. *)
Definition extractionCalls (log : list event) : list (list nat) :=
  omap (fun e => match e with
                 | Request pages 0 => Some pages
                 | _ => None
                 end) log.

(** The extraction of chunk [j] of a document of [n] pages: the call the
    pipeline makes for it. *)
Definition extraction (toLowerCase : jsstring -> jsstring)
    (service : nat -> nat -> attempt_result) (n j : nat) : M jsstring :=
  callGeminiWithRetry toLowerCase (service (j * CHUNK_SIZE)) (chunkPages n j).

(** The text an extraction returns, [''] when it throws. *)
Definition textOf (m : M jsstring) : jsstring :=
  match result_of m with
  | inr text => text
  | inl _ => []
  end.

(** The attempt throws an error classified as transient. *)
Definition failsTransient (toLowerCase : jsstring -> jsstring)
    (r : attempt_result) : Prop :=
  exists e, r = Threw e /\ isTransient toLowerCase (as_Error e) = true.

(** The attempt throws an error that is not classified as transient. *)
Definition failsFatal (toLowerCase : jsstring -> jsstring)
    (r : attempt_result) : Prop :=
  exists e, r = Threw e /\ isTransient toLowerCase (as_Error e) = false.

(** [needle] occurs in [s]. *)
Definition occursIn (needle s : jsstring) : Prop :=
  exists before after, s = before ++ needle ++ after.

(** The message contains [internal] or [500], letter case ignored: one of
    the two occurs in the message once it is put in lower case. *)
Definition mentionsServerFault (toLowerCase : jsstring -> jsstring)
    (message : jsstring) : Prop :=
  occursIn (js "internal") (toLowerCase message) \/
  occursIn (js "500") (toLowerCase message).

(** Every attempt before attempt [k] threw an error whose message mentions
    a server fault. *)
Definition faultsBefore (toLowerCase : jsstring -> jsstring)
    (ai : nat -> attempt_result) (k : nat) : Prop :=
  forall j, j < k ->
    exists e, ai j = Threw e /\ mentionsServerFault toLowerCase (as_Error e).

End Spec.
Export Spec.

(* ===================================================================== *)
(** * Sample inputs *)
(* ===================================================================== *)

Module Samples.

(** A service that is down twice and then answers with fenced CSV. *)
Definition flakyService (attempt : nat) : attempt_result :=
  match attempt with
  | 0 => Threw (ThrownError (js "500 Internal Server Error"))
  | 1 => Threw (ThrownOther (js "INTERNAL"))
  | _ => Responded (Some (FENCE ++ js "csv" ++ [LF] ++ js "A,1" ++ [LF] ++ FENCE))
  end.

(** A service that rejects the request. *)
Definition rejectingService (attempt : nat) : attempt_result :=
  Threw (ThrownError (js "API key not valid")).

(** A service that stays down. *)
Definition downService (attempt : nat) : attempt_result :=
  Threw (ThrownError (js "Internal error")).

(** A service that is down once and then rejects the request. *)
Definition fickleService (attempt : nat) : attempt_result :=
  match attempt with
  | 0 => Threw (ThrownError (js "HTTP 500"))
  | _ => Threw (ThrownOther (js "quota exceeded"))
  end.

(** Fenced CSV with a line feed after the closing fence, fenced CSV with a
    blank before the opening fence, and the services that answer with
    them. *)
Definition fencedThenNewline : jsstring :=
  FENCE ++ js "csv" ++ [LF] ++ js "A,1" ++ [LF] ++ FENCE ++ [LF].
Definition blankThenFenced : jsstring :=
  js " " ++ FENCE ++ js "csv" ++ [LF] ++ js "A,1" ++ [LF] ++ FENCE.
Definition newlineService (attempt : nat) : attempt_result :=
  Responded (Some fencedThenNewline).
Definition indentingService (attempt : nat) : attempt_result :=
  Responded (Some blankThenFenced).

End Samples.

Module MergeSamples.

(** The header line ["Date","Run Num"] and the fragments of the
    specification's merge example. *)
Definition headerLine : jsstring := HEADER_PATTERN.
Definition fragmentA : jsstring := headerLine ++ [LF] ++ js "A,1" ++ [LF].
Definition fragmentB : jsstring := headerLine ++ [LF] ++ js "B,2" ++ [LF].

(** A later fragment that opens with a note and repeats the header after
    it. *)
Definition fragmentNote : jsstring :=
  js "Page 21" ++ [LF] ++ headerLine ++ [LF] ++ js "B,2".

(** A first fragment that comes without a header. *)
Definition fragmentBare : jsstring := js "A,1" ++ [LF] ++ js "B,2".

End MergeSamples.

Module PipelineSamples.

Import MergeSamples.

(** A service that answers every chunk at once with a header and a row. *)
Definition steadyService (startPage attempt : nat) : attempt_result :=
  Responded (Some fragmentA).

(** A service that finds nothing on any page. *)
Definition blankService (startPage attempt : nat) : attempt_result :=
  Responded (Some (js " ")).

(** A service that finds nothing on the first twenty pages. *)
Definition lateService (startPage attempt : nat) : attempt_result :=
  match startPage with
  | 0 => Responded None
  | _ => Responded (Some fragmentB)
  end.

Definition sampleKey : option jsstring := Some (js "secret").

End PipelineSamples.

(* ===================================================================== *)
(** * The fill-down pass, row by row *)
(* ===================================================================== *)

Module FillDownSpec.

Section Columns.

Variables runNumberIndex pickupTimeIndex pickupAddressIndex : nat.

(** What one iteration of the loop makes of [currentRow], given the row
    before it as it stands then. *)
Definition fillRow (prevRow currentRow : row) : row :=
  if (length prevRow <=? runNumberIndex)
     || (length currentRow <=? runNumberIndex) then currentRow
  else if truthy (unquote (at_index currentRow runNumberIndex))
          && str_eqb (unquote (at_index currentRow runNumberIndex))
                     (unquote (at_index prevRow runNumberIndex))
  then
    if negb (truthy (unquote (at_index currentRow pickupTimeIndex)))
       || negb (truthy (unquote (at_index currentRow pickupAddressIndex)))
    then
      if Nat.max pickupTimeIndex pickupAddressIndex <? length prevRow
      then
        assign
          (assign currentRow pickupTimeIndex
             (at_index prevRow pickupTimeIndex))
          pickupAddressIndex (at_index prevRow pickupAddressIndex)
      else currentRow
    else currentRow
  else currentRow.

(** The rows after [prevRow], each corrected against the corrected row
    before it. *)
Fixpoint fillRows (prevRow : row) (rows : list row) : list row :=
  match rows with
  | [] => []
  | currentRow :: rest =>
      let corrected := fillRow prevRow currentRow in
      corrected :: fillRows corrected rest
  end.

Definition fillAll (rows : list row) : list row :=
  match rows with
  | [] => []
  | row0 :: rest => row0 :: fillRows row0 rest
  end.

End Columns.

(** The row with its holes read as empty fields. *)
Definition plainRow (r : row) : row := (fun c => Some (cell_text c)) <$> r.

(** A row as splitting leaves it: at least one field, no comma inside a
    field. *)
Definition commaFree (r : row) : Prop :=
  r <> [] /\ Forall (fun c => COMMA ∉ cell_text c) r.

(** The indices of the three columns in the header line, when all three
    are there. *)
Definition columns (line0 : jsstring) : option (nat * nat * nat) :=
  let header := (fun s => unquote (Some s)) <$> split COMMA line0 in
  match indexOf header (js "Run Num"),
        indexOf header (js "Pick Up Time"),
        indexOf header (js "Pickup Address") with
  | Some runNumberIndex, Some pickupTimeIndex, Some pickupAddressIndex =>
      Some (runNumberIndex, pickupTimeIndex, pickupAddressIndex)
  | _, _, _ => None
  end.

(** The number of fields of a line. *)
Definition fieldCount (line : jsstring) : nat := length (split COMMA line).

(** C4 as stated: a data row with fewer fields than the largest of the
    three column indices plus one comes out as it went in. *)
Definition shortRowsUntouched (lines : list jsstring) : Prop :=
  forall line0 rn pt pa i line,
    lines !! 0 = Some line0 ->
    columns line0 = Some (rn, pt, pa) ->
    lines !! (S i) = Some line ->
    fieldCount line < Nat.max rn (Nat.max pt pa) + 1 ->
    applyFillDownLogic lines !! (S i) = Some line.

End FillDownSpec.
Export FillDownSpec.

Module FillDownSamples.

Definition sheetHeader : jsstring :=
  js "Date,Run Num,Pick Up Time,Customer,Customer ID,Pickup Address,Dropoff Address,Dropoff Time,Comment,Mileage".
Definition aliceRow : jsstring :=
  js "2025-01-01,5,09:00,Alice,1,123 Main,456 Oak,09:30,,10".
Definition bobRow : jsstring :=
  js "2025-01-01,5,,Bob,2,,789 Elm,09:45,,10".
Definition bobFilled : jsstring :=
  js "2025-01-01,5,09:00,Bob,2,123 Main,789 Elm,09:45,,10".

(** A row cut off after the run number, and what the pass makes of it
    after [aliceRow]. *)
Definition shortRow : jsstring := js "2025-01-01,5".
Definition shortRowGrown : jsstring := js "2025-01-01,5,09:00,,,123 Main".

(** A row cut off before the run number. *)
Definition stubRow : jsstring := js "2025-01-01".

End FillDownSamples.

(* ===================================================================== *)
(** * Further definitions for statements about the rest of the service *)
(* ===================================================================== *)

Module Views.

(** A field without one quote character at its start, and without one at
    its end. *)
Definition stripQuoteStart (t : jsstring) : jsstring :=
  default t (stripPrefix [QUOTE] t).
Definition stripQuoteEnd (t : jsstring) : jsstring :=
  default t (stripSuffix [QUOTE] t).

(** The raw field [j] of a line, [None] when the line has fewer fields. *)
Definition field (line : jsstring) (j : nat) : option jsstring :=
  split COMMA line !! j.

(** The header fields of a sheet as the corrector reads them. *)
Definition headerNames (line0 : jsstring) : list jsstring :=
  (fun s => unquote (Some s)) <$> split COMMA line0.

(** A line that is not made of white space only. *)
Definition nonBlank (line : jsstring) : Prop := trim line <> [].

(** The progress messages of a log, in order. *)
Definition progressOf (log : list event) : list progress :=
  omap (fun e => match e with Progress m => Some m | _ => None end) log.

(** The milliseconds a log spends sleeping. *)
Definition sleepTotal (log : list event) : N :=
  foldr (fun e total =>
           match e with Sleep ms => (N.of_nat ms + total)%N | _ => total end)
    0%N log.

(** The progress message for chunk [j] of a document of [n] pages, with
    its page numbers counted from 1. *)
Definition processingMessage (n j : nat) : progress :=
  Processing (j * CHUNK_SIZE + 1) (Nat.min (j * CHUNK_SIZE + CHUNK_SIZE) n) n.

(** What the loop logs for chunk [j]: its progress message, then the
    events of its extraction. *)
Definition chunkLog (toLowerCase : jsstring -> jsstring)
    (service : nat -> nat -> attempt_result) (n j : nat) : list event :=
  Progress (processingMessage n j)
    :: log_of (extraction toLowerCase service n j).

(** The messages of the five errors the service creates for its caller. *)
Definition pipelineErrors : list jsstring :=
  [ConfigurationError; InvalidDocumentError; ServiceBusyError;
   ExtractionFailedError; EmptyResultError].

End Views.
Export Views.

Module FillDownViews.

Import FillDownSamples.

(** A sheet without the column the corrector needs: the header spells the
    run number column in lower case. *)
Definition lowerCaseSheet : list jsstring :=
  [js "Date,run num,Pick Up Time,Pickup Address"; js "d,5,09:00,Main";
   js "d,5,,"].

(** A row whose pickup time alone is blank, and what the pass makes of it
    after [aliceRow]: the pickup address is overwritten as well. *)
Definition carolRow : jsstring :=
  js "2025-01-01,5,,Carol,3,9 Elm,1 Pine,10:00,,10".
Definition carolFilled : jsstring :=
  js "2025-01-01,5,09:00,Carol,3,123 Main,1 Pine,10:00,,10".

End FillDownViews.

Module PipelineViews.

Import MergeSamples.

(** A service that answers the first chunk and rejects the second. *)
Definition failingSecondChunk (startPage attempt : nat) : attempt_result :=
  match startPage with
  | 0 => Responded (Some fragmentA)
  | _ => Threw (ThrownError (js "quota exceeded"))
  end.

End PipelineViews.

Module Base64Views.

(** The 6-bit values of a sequence of bytes, most significant bits first;
    the last value is filled up with zero bits. *)
Fixpoint sextets (bytes : list N) : list N :=
  match bytes with
  | [] => []
  | [a] => [a / 4; (a mod 4) * 16]%N
  | [a; b] => [a / 4; (a mod 4) * 16 + b / 16; (b mod 16) * 4]%N
  | a :: b :: c :: rest =>
      (a / 4 :: (a mod 4) * 16 + b / 16 :: (b mod 16) * 4 + c / 64
       :: c mod 64 :: sextets rest)%N
  end.

(** The padding after the characters of [n] bytes. *)
Definition padding (n : nat) : jsstring :=
  match n mod 3 with
  | 0 => []
  | 1 => [PAD; PAD]
  | _ => [PAD]
  end.

(** A character of base64 text: of the alphabet, or the padding. *)
Definition isBase64Char (c : N) : Prop := is_Some (b64val c) \/ c = PAD.

End Base64Views.
Export Base64Views.

(* ===================================================================== *)
(** * Strings: splitting, joining, trimming *)
(* ===================================================================== *)

Section StringLemmas.

Lemma split_not_nil sep s : split sep s <> [].
Proof.
  destruct s as [|c s]; simpl; [done|].
  destruct (c =? sep)%N; [done|]. by destruct (split sep s).
Qed.

(** No field of a split line holds the separator. *)
Lemma split_no_sep sep s : Forall (fun f => sep ∉ f) (split sep s).
Proof.
  induction s as [|c s IH]; simpl.
  - repeat constructor. apply not_elem_of_nil.
  - destruct (N.eqb_spec c sep) as [->|Hne].
    + constructor; [apply not_elem_of_nil|done].
    + destruct (split sep s) as [|f fs]; inversion IH; subst.
      * repeat constructor. by intros [->|?%not_elem_of_nil]%elem_of_cons.
      * constructor; [|done]. intros [->|?]%elem_of_cons; done.
  Qed.

Lemma join_cons sep c (a : list (option jsstring)) :
  a <> [] -> join sep (c :: a) = cell_text c ++ sep ++ join sep a.
Proof. by destruct a. Qed.

(** Joining the fields of a line gives the line back. *)
Lemma join_split sep s : join [sep] (Some <$> split sep s) = s.
Proof.
  induction s as [|c s IH]; simpl; [done|].
  pose proof (split_not_nil sep s) as Hnn.
  destruct (N.eqb_spec c sep) as [->|Hne].
  - rewrite fmap_cons, join_cons; [|by destruct (split sep s)].
    simpl. by rewrite IH.
  - destruct (split sep s) as [|f fs] eqn:E; [done|].
    destruct fs as [|f' fs]; simpl in IH |- *; by rewrite <- IH.
Qed.

Lemma split_app_sep sep f s :
  sep ∉ f -> split sep (f ++ sep :: s) = f :: split sep s.
Proof.
  induction f as [|c f IH]; intros Hf; simpl.
  - by rewrite N.eqb_refl.
  - destruct (N.eqb_spec c sep) as [->|Hne].
    + exfalso. apply Hf. left.
    + rewrite IH; [done|]. intros ?. apply Hf. by right.
Qed.

Lemma split_no_sep_id sep f : sep ∉ f -> split sep f = [f].
Proof.
  induction f as [|c f IH]; intros Hf; simpl; [done|].
  destruct (N.eqb_spec c sep) as [->|Hne].
  - exfalso. apply Hf. left.
  - rewrite IH; [done|]. intros ?. apply Hf. by right.
Qed.

(** Splitting a joined row gives its fields back, holes as empty
    strings, provided no field holds the separator. *)
Lemma split_join sep (a : list (option jsstring)) :
  a <> [] ->
  Forall (fun c => sep ∉ cell_text c) a ->
  split sep (join [sep] a) = cell_text <$> a.
Proof.
  induction a as [|c a IH]; intros Hnn Hall; [done|].
  inversion Hall as [|? ? Hc Ha]; subst.
  destruct a as [|c' a'].
  - simpl. by apply split_no_sep_id.
  - rewrite join_cons by done.
    change ([sep] ++ ?x) with (sep :: x).
    rewrite split_app_sep by done.
    rewrite IH by done. done.
Qed.

Lemma dropWhile_decompose {A} (p : A -> bool) (l : list A) :
  exists a, l = a ++ dropWhile p l /\ forallb p a = true.
Proof.
  induction l as [|x l (a & E & Ha)]; simpl.
  - by exists [].
  - destruct (p x) eqn:Hx.
    + exists (x :: a). simpl. rewrite Hx, Ha. split; [by f_equal|done].
    + by exists [].
Qed.

Lemma dropWhile_head {A} (p : A -> bool) (l : list A) x l' :
  dropWhile p l = x :: l' -> p x = false.
Proof.
  induction l as [|y l IH]; simpl; [done|].
  destruct (p y) eqn:Hy; [done|]. by intros [= -> ->].
Qed.

Lemma dropWhile_all {A} (p : A -> bool) (l : list A) :
  forallb p l = true -> dropWhile p l = [].
Proof.
  induction l as [|x l IH]; simpl; [done|].
  intros [-> ?]%andb_prop. auto.
Qed.

Lemma forallb_reverse {A} (p : A -> bool) (l : list A) :
  forallb p (reverse l) = forallb p l.
Proof.
  induction l as [|x l IH]; [done|].
  rewrite reverse_cons, forallb_app, IH. simpl. rewrite andb_true_r.
  apply andb_comm.
Qed.

(** [trim] cuts white space off both ends and nothing else. *)
Lemma trim_decompose s :
  exists a b, s = a ++ trim s ++ b /\
    forallb is_ws a = true /\ forallb is_ws b = true.
Proof.
  unfold trim, trimEnd, trimStart.
  destruct (dropWhile_decompose is_ws s) as (a & Ea & Ha).
  destruct (dropWhile_decompose is_ws (reverse (dropWhile is_ws s)))
    as (b & Eb & Hb).
  exists a, (reverse b). split; [|split; [done|by rewrite forallb_reverse]].
  rewrite <- reverse_app, <- Eb, reverse_involutive. done.
Qed.

(** A string is trimmed to nothing exactly when it is all white space. *)
Lemma trim_nil_iff s : trim s = [] <-> forallb is_ws s = true.
Proof.
  split.
  - intros E. destruct (trim_decompose s) as (a & b & Es & Ha & Hb).
    rewrite E in Es. rewrite Es, forallb_app, Ha. simpl. done.
  - intros H. unfold trim, trimEnd, trimStart.
    by rewrite (dropWhile_all _ _ H).
Qed.

(** What is left of a trimmed string starts with a code unit that is not
    white space. *)
Lemma trim_head s c s' : trim s = c :: s' -> is_ws c = false.
Proof.
  unfold trim, trimEnd, trimStart. intros E.
  destruct (dropWhile is_ws s) as [|d t] eqn:Ed; [done|].
  pose proof (dropWhile_head _ _ _ _ Ed) as Hd.
  destruct (dropWhile_decompose is_ws (reverse (d :: t))) as (b & Eb & Hb).
  apply (f_equal reverse) in Eb. rewrite reverse_involutive, reverse_app in Eb.
  rewrite E in Eb. simpl in Eb. by injection Eb as -> _.
Qed.

Lemma trim_ws_cons c s : is_ws c = true -> trim (c :: s) = trim s.
Proof. intros H. unfold trim, trimStart. simpl. by rewrite H. Qed.

Lemma stripPrefix_Some p s s' : stripPrefix p s = Some s' -> s = p ++ s'.
Proof.
  revert s. induction p as [|a p IH]; intros [|b s]; simpl; try congruence.
  destruct (N.eqb_spec a b) as [->|]; [|done].
  intros E. by rewrite (IH _ E).
Qed.

Lemma stripPrefix_app p s : stripPrefix p (p ++ s) = Some s.
Proof.
  induction p as [|a p IH]; simpl; [by destruct s|].
  by rewrite N.eqb_refl.
Qed.

Lemma stripSuffix_Some p s pre : stripSuffix p s = Some pre -> s = pre ++ p.
Proof.
  unfold stripSuffix. destruct (stripPrefix _ _) as [r|] eqn:E; [|done].
  intros [= <-]. apply stripPrefix_Some in E.
  apply (f_equal reverse) in E.
  by rewrite reverse_involutive, reverse_app, reverse_involutive in E.
Qed.

Lemma stripSuffix_app p pre : stripSuffix p (pre ++ p) = Some pre.
Proof.
  unfold stripSuffix. rewrite reverse_app, stripPrefix_app. simpl.
  by rewrite reverse_involutive.
Qed.

Lemma stripSuffix_cons p c s :
  c :: s <> p -> stripSuffix p (c :: s) = (c ::.) <$> stripSuffix p s.
Proof.
  intros Hne. destruct (stripSuffix p s) as [pre|] eqn:E.
  - apply stripSuffix_Some in E as ->. simpl.
    apply (stripSuffix_app p (c :: pre)).
  - simpl. destruct (stripSuffix p (c :: s)) as [pre'|] eqn:E'; [|done].
    apply stripSuffix_Some in E'. destruct pre' as [|d pre'].
    + by destruct Hne.
    + injection E' as -> ->. by rewrite stripSuffix_app in E.
Qed.

End StringLemmas.

(* ===================================================================== *)
(** * The regular expressions of the source, by what they match *)
(* ===================================================================== *)

Section RegexLemmas.

(** A literal matches exactly its own text, and hands over what follows. *)
Lemma rmatch_Lit p pos rest k :
  rmatch false (Lit p) pos rest k =
  match stripPrefix p rest with
  | Some rest' => k (pos + length p) rest'
  | None => None
  end.
Proof.
  revert pos rest. induction p as [|a p IH]; intros pos rest; simpl.
  - rewrite Nat.add_0_r. by destruct rest.
  - destruct rest as [|b rest]; [done|]. unfold chr_match.
    destruct (a =? b)%N; [|done]. rewrite IH.
    by rewrite Nat.add_succ_r.
Qed.

(** With the [i] flag a literal matches its text in any letter case. *)
Lemma canonicalize_asciiLower a b :
  (canonicalize a =? canonicalize b)%N = (asciiLower a =? asciiLower b)%N.
Proof.
  unfold canonicalize, asciiLower.
  repeat match goal with
         | |- context [(?x <=? ?y)%N] => destruct (N.leb_spec x y)
         end; simpl;
  repeat match goal with
         | |- context [(?x =? ?y)%N] => destruct (N.eqb_spec x y)
         end; try done; lia.
Qed.

Lemma rmatch_Lit_ignoreCase p pos rest :
  rmatch true (Lit p) pos rest (fun e _ => Some e) <> None <->
  startsWithIgnoreCase p rest = true.
Proof.
  revert pos rest. induction p as [|a p IH]; intros pos rest; simpl.
  - by destruct rest.
  - destruct rest as [|b rest]; [done|]. unfold chr_match.
    rewrite canonicalize_asciiLower.
    destruct (asciiLower a =? asciiLower b)%N; simpl; [apply IH|done].
Qed.

(** A regex that opens with [^] matches at index 0 or nowhere. *)
Lemma search_Bol_later ic r pos rest :
  search ic (Seq Bol r) (S pos) rest = None.
Proof.
  revert pos. induction rest as [|c rest IH]; intros pos; [done|].
  simpl. apply IH.
Qed.

Lemma search_Bol ic r s :
  search ic (Seq Bol r) 0 s =
  (fun e => (0, e)) <$> match_at ic (Seq Bol r) 0 s.
Proof.
  destruct s as [|c s]; simpl; destruct (match_at _ _ _ _); try done.
  apply search_Bol_later.
Qed.

(** [/^"Date","Run Num"/i] tests for the header pattern as a prefix, letter
    case ignored. *)
Lemma test_headerRegex line : test true headerRegex line = isHeaderLine line.
Proof.
  unfold test, headerRegex, isHeaderLine. rewrite search_Bol.
  unfold match_at. change (rmatch true (Seq Bol ?r) 0 ?s ?k)
    with (rmatch true r 0 s k).
  pose proof (rmatch_Lit_ignoreCase HEADER_PATTERN 0 line) as H.
  destruct (rmatch true (Lit HEADER_PATTERN) 0 line _) eqn:E.
  - symmetry. apply H. done.
  - destruct (startsWithIgnoreCase _ _); [|done]. destruct H as [_ H].
    by destruct H.
Qed.

Lemma rmatch_tag_LF pos s1 :
  exists n,
    rmatch false (Seq (Opt (Lit (js "csv"))) (Opt (Chr LF))) pos s1
      (fun e _ => Some e) = Some (pos + n) /\
    drop n s1 =
      match default s1 (stripPrefix (js "csv") s1) with
      | c :: s3 => if (LF =? c)%N then s3 else c :: s3
      | [] => []
      end.
Proof.
  assert (forall q rest,
    rmatch false (Opt (Chr LF)) q rest (fun e _ => Some e) =
    Some (q + match rest with
              | c :: _ => if (LF =? c)%N then 1 else 0
              | [] => 0
              end)) as HLF.
  { intros q [|c rest]; cbn [rmatch]; unfold chr_match.
    - by rewrite Nat.add_0_r.
    - destruct (LF =? c)%N; [by rewrite Nat.add_1_r|by rewrite Nat.add_0_r]. }
  change (rmatch false (Seq (Opt ?a) ?b) ?q ?r ?k)
    with (match rmatch false a q r
                  (fun pos' rest' => rmatch false b pos' rest' k) with
          | Some e => Some e
          | None => rmatch false b q r k
          end).
  rewrite rmatch_Lit. cbv beta.
  destruct (stripPrefix (js "csv") s1) as [s2|] eqn:E2.
  - apply stripPrefix_Some in E2 as ->. rewrite HLF. cbn [default id].
    destruct s2 as [|c s3].
    + exists (length (js "csv")). split; [by rewrite Nat.add_0_r|].
      by rewrite drop_ge.
    + destruct (LF =? c)%N.
      * exists (length (js "csv" ++ [c])). split.
        { rewrite length_app. simpl length. f_equal. lia. }
        rewrite (assoc_L (++) _ [c] s3). apply drop_app_length.
      * exists (length (js "csv")). split; [by rewrite Nat.add_0_r|].
        apply drop_app_length.
  - rewrite HLF. cbn [default id]. destruct s1 as [|c s3].
    + exists 0. by rewrite Nat.add_0_r.
    + destruct (LF =? c)%N; [exists 1|exists 0]; split; try done.
Qed.

Lemma replace_leadingFence s :
  replace_first false leadingFence s = afterLeadingFence s.
Proof.
  unfold replace_first, leadingFence, afterLeadingFence.
  rewrite search_Bol. unfold match_at.
  change (rmatch false (Seq Bol (Seq ?a ?b)) 0 ?s ?k)
    with (rmatch false a 0 s (fun pos' rest' => rmatch false b pos' rest' k)).
  rewrite rmatch_Lit.
  destruct (stripPrefix FENCE s) as [s1|] eqn:E1; [|done].
  apply stripPrefix_Some in E1 as ->.
  destruct (rmatch_tag_LF (0 + length FENCE) s1) as (n & -> & <-).
  cbn [fmap option_fmap option_map]. rewrite take_0. cbn [app].
  apply drop_app_add.
Qed.

(** The second [replace]: the fence the text ends with. *)
Lemma match_at_trailingFence pos s :
  match_at false trailingFence pos s =
  if decide (s = FENCE) then Some (pos + 3) else None.
Proof.
  unfold match_at, trailingFence.
  change (rmatch false (Seq ?a ?b) ?p ?r ?k)
    with (rmatch false a p r (fun pos' rest' => rmatch false b pos' rest' k)).
  rewrite rmatch_Lit. destruct (stripPrefix FENCE s) as [r|] eqn:E.
  - apply stripPrefix_Some in E as ->. destruct r as [|c r]; cbn [rmatch].
    + rewrite app_nil_r. by rewrite decide_True.
    + rewrite decide_False; [done|]. intros H.
      apply (f_equal length) in H. rewrite length_app in H. simpl in H. lia.
  - rewrite decide_False; [done|]. intros ->. done.
Qed.

Lemma search_trailingFence pos s :
  search false trailingFence pos s =
  (fun pre => (pos + length pre, pos + length pre + 3))
    <$> stripSuffix FENCE s.
Proof.
  revert pos. induction s as [|c s IH]; intros pos.
  - done.
  - cbn [search]. rewrite match_at_trailingFence. case_decide as Hs.
    + rewrite Hs. simpl. by rewrite Nat.add_0_r.
    + rewrite IH, stripSuffix_cons by done.
      destruct (stripSuffix FENCE s); simpl; [|done].
      do 2 f_equal; lia.
Qed.

Lemma replace_trailingFence s :
  replace_first false trailingFence s = withoutTrailingFence s.
Proof.
  unfold replace_first, withoutTrailingFence.
  rewrite search_trailingFence.
  destruct (stripSuffix FENCE s) as [pre|] eqn:E; simpl; [|done].
  apply stripSuffix_Some in E as ->.
  rewrite take_app_length, drop_ge; [by rewrite app_nil_r|].
  rewrite length_app. simpl. lia.
Qed.

(** The line feed the first [replace] may take is white space that [trim]
    takes in any case. *)
Lemma withoutTrailingFence_LF s :
  withoutTrailingFence (LF :: s) = LF :: withoutTrailingFence s.
Proof.
  unfold withoutTrailingFence. rewrite stripSuffix_cons.
  - by destruct (stripSuffix FENCE s).
  - destruct s as [|? [|? [|? ?]]]; done.
Qed.

Lemma trim_afterLeadingFence s :
  trim (withoutTrailingFence (afterLeadingFence s)) =
  trim (withoutTrailingFence (withoutLeadingFence s)).
Proof.
  unfold afterLeadingFence, withoutLeadingFence.
  destruct (stripPrefix FENCE s) as [s1|]; [|done].
  destruct (default s1 (stripPrefix (js "csv") s1)) as [|c s3]; [done|].
  destruct (N.eqb_spec LF c) as [<-|]; [|done].
  rewrite withoutTrailingFence_LF. by rewrite trim_ws_cons.
Qed.

(** The two [replace] calls cut a fence at the very start and at the very
    end of the text they are given; [trim] comes last. *)
Lemma stripFences_cutThenTrimmed text : stripFences text = cutThenTrimmed text.
Proof.
  unfold stripFences, cutThenTrimmed.
  rewrite replace_leadingFence, replace_trailingFence.
  apply trim_afterLeadingFence.
Qed.

(** On a response without white space at its ends the source strips what
    the specification says. *)
Lemma stripFences_fenceStripped text :
  trim text = text -> stripFences text = fenceStripped text.
Proof.
  intros E. rewrite stripFences_cutThenTrimmed. unfold fenceStripped.
  by rewrite E.
Qed.

(** What comes back is a piece of the response as it stands. *)
Lemma cutThenTrimmed_verbatim s :
  exists pre post, s = pre ++ cutThenTrimmed s ++ post.
Proof.
  unfold cutThenTrimmed.
  assert (exists pre, s = pre ++ withoutLeadingFence s) as (p1 & E1).
  { unfold withoutLeadingFence.
    destruct (stripPrefix FENCE s) as [s1|] eqn:E; [|by exists []].
    apply stripPrefix_Some in E as ->.
    destruct (stripPrefix (js "csv") s1) as [s2|] eqn:E2; simpl.
    - apply stripPrefix_Some in E2 as ->. exists (FENCE ++ js "csv").
      by rewrite <- app_assoc.
    - by exists FENCE. }
  set (u := withoutLeadingFence s) in *.
  assert (exists post, u = withoutTrailingFence u ++ post) as (p2 & E2).
  { unfold withoutTrailingFence.
    destruct (stripSuffix FENCE u) as [pre|] eqn:E; simpl.
    - apply stripSuffix_Some in E. by exists FENCE.
    - exists []. by rewrite app_nil_r. }
  set (v := withoutTrailingFence u) in *.
  destruct (trim_decompose v) as (a & b & E3 & _ & _).
  exists (p1 ++ a), (b ++ p2).
  rewrite E1 at 1. rewrite E2 at 1. rewrite E3 at 1.
  by rewrite <- !app_assoc.
Qed.

(** [includes] finds a substring exactly when there is one. *)
Lemma startsWith_prefix p s :
  startsWith p s = true <-> exists after, s = p ++ after.
Proof.
  revert s. induction p as [|a p IH]; intros s; simpl.
  - split; [by exists s|done].
  - destruct s as [|b s].
    + split; [done|]. by intros [after ?].
    + rewrite andb_true_iff, N.eqb_eq, IH. split.
      * intros [-> [after ->]]. by exists after.
      * intros [after [= -> ->]]. split; [done|by exists after].
Qed.

Lemma includes_occursIn s p : includes s p = true <-> occursIn p s.
Proof.
  unfold occursIn. induction s as [|c s IH]; simpl.
  - rewrite orb_false_r, startsWith_prefix. split.
    + intros [after E]. by exists [], after.
    + intros (before & after & E). symmetry in E.
      apply app_eq_nil in E as [-> E]. apply app_eq_nil in E as [-> ->].
      by exists [].
  - rewrite orb_true_iff, startsWith_prefix, IH. split.
    + intros [[after E]|(before & after & E)].
      * by exists [], after.
      * exists (c :: before), after. by rewrite E.
    + intros ([|d before] & after & E).
      * left. by exists after.
      * right. injection E as -> ->. by exists before, after.
Qed.

End RegexLemmas.

(* ===================================================================== *)
(** * ExtractionClient: retries, errors, returned text *)
(* ===================================================================== *)

Section ClientProofs.

Variable toLowerCase : jsstring -> jsstring.
Variable ai : nat -> attempt_result.
Variable pages : list nat.

#[local] Abbreviation run := (callGeminiWithRetry toLowerCase ai pages).

(** Runs the loop on every way the three attempts can go. *)
Ltac run_client :=
  unfold failsTransient, failsFatal in *;
  repeat match goal with
         | H : exists e, _ = Threw e /\ _ |- _ => destruct H as (? & ? & ?)
         end;
  repeat match goal with
         | H : context [callGeminiWithRetry] |- _ => revert H
         end;
  unfold callGeminiWithRetry, MAX_RETRIES;
  repeat match goal with
         | _ => progress
             cbn [retryLoop bind emit ret throw default id Nat.sub
                  Nat.ltb Nat.leb log_of result_of fst snd app]
         | H1 : ?x = true, H2 : ?x = false |- _ => congruence
         | H : ai ?k = _ |- context [ai ?k] => rewrite H
         | H : isTransient ?f ?m = _ |- context [isTransient ?f ?m] => rewrite H
         | |- context [giveUp] => unfold giveUp
         | |- context [MAX_RETRIES] => unfold MAX_RETRIES
         | |- context [match ai ?k with _ => _ end] =>
             let A := fresh "A" in destruct (ai k) eqn:A
         | |- context [if isTransient ?f ?m then _ else _] =>
             let T := fresh "T" in destruct (isTransient f m) eqn:T
         | _ => progress simplify_eq
         end;
  intros.

(** Goes through the events a membership hypothesis leaves open. *)
Ltac elem_cases :=
  repeat match goal with
         | H : _ ∈ _ :: _ |- _ => apply elem_of_cons in H as [?|H]
         | H : _ ∈ [] |- _ => by apply elem_of_nil in H
         | H1 : ai ?k = _, H2 : ai ?k = _ |- _ => rewrite H1 in H2
         | _ => progress simplify_eq
         | H1 : ?x = true, H2 : ?x = false |- _ => congruence
         end.

Lemma ServiceBusyError_ne_ExtractionFailedError :
  ServiceBusyError <> ExtractionFailedError.
Proof. vm_compute. discriminate. Qed.

(** The log of a call holds its requests and back-off sleeps only, and
    opens with attempt 0. *)
Lemma callGeminiWithRetry_log_head :
  exists log', log_of run = Request pages 0 :: log' /\
    Forall (fun e => match e with
                     | Request _ (S _) | Sleep _ => True
                     | _ => False
                     end) log'.
Proof. run_client; eexists; (split; [reflexivity|]); repeat constructor. Qed.

(** C2: at most three attempts, numbered from 0; an attempt that throws an
    error classified transient is followed, unless it is the third, by a
    sleep of 1000 * 2^attempt ms and the next attempt; an attempt that
    throws any other error is the last one. Transient failures of attempts
    1 and 2 and a success of attempt 3 make three calls with sleeps of 1000
    and 2000 ms; a non-transient failure of attempt 1 makes one call. *)
Theorem C2_retry_policy :
  (exists n, n <= 3 /\ requests (log_of run) = Request pages <$> seq 0 n) /\
  (forall k, Request pages k ∈ log_of run ->
     failsTransient toLowerCase (ai k) -> k < 2 ->
     exists before after,
       log_of run =
       before ++ [Request pages k; Sleep (1000 * 2 ^ k); Request pages (S k)]
              ++ after) /\
  (forall k, Request pages k ∈ log_of run ->
     failsFatal toLowerCase (ai k) ->
     exists before, log_of run = before ++ [Request pages k]) /\
  (forall ms, Sleep ms ∈ log_of run ->
     exists k, k < 2 /\ ms = 1000 * 2 ^ k /\
       failsTransient toLowerCase (ai k)) /\
  (forall text,
     failsTransient toLowerCase (ai 0) ->
     failsTransient toLowerCase (ai 1) ->
     ai 2 = Responded text ->
     log_of run =
       [Request pages 0; Sleep 1000; Request pages 1; Sleep 2000;
        Request pages 2] /\
     result_of run = inr (stripFences (default [] text))) /\
  (failsFatal toLowerCase (ai 0) ->
     log_of run = [Request pages 0] /\
     result_of run = inl ExtractionFailedError).
Proof.
  split; [|split; [|split; [|split; [|split]]]].
  - run_client;
      first [ exists 1; split; [lia|reflexivity]
            | exists 2; split; [lia|reflexivity]
            | exists 3; split; [lia|reflexivity] ].
  - intros k Hk Hf Hlt.
    destruct k as [|[|k]]; [| |lia]; run_client; elem_cases;
      try (by exists [], []);
      try (by eexists [_; _], []);
      try (by eexists [_; _], [_]);
      try (by eexists [], [_; _]);
      try (by eexists [], [_]).
  - intros k Hk Hf. run_client; elem_cases;
      try (by exists []);
      try (by eexists [_; _]);
      try (by eexists [_; _; _; _]).
  - intros ms Hms. run_client; elem_cases;
      first [ exists 0; split; [lia|]; split; [reflexivity|]; by eauto
            | exists 1; split; [lia|]; split; [reflexivity|]; by eauto ].
  - intros text H0 H1 H2. run_client. split; reflexivity.
  - intros H0. run_client. split; reflexivity.
Qed.

(** The test of the source for a transient error is the specification's:
    [internal] or [500] in the message, letter case ignored. *)
Lemma isTransient_mentions message :
  isTransient toLowerCase message = true <->
  mentionsServerFault toLowerCase message.
Proof.
  unfold isTransient, mentionsServerFault.
  by rewrite orb_true_iff, !includes_occursIn.
Qed.

Lemma isTransient_silent message :
  ~ mentionsServerFault toLowerCase message ->
  isTransient toLowerCase message = false.
Proof.
  intros H. destruct (isTransient toLowerCase message) eqn:T; [|done].
  by apply isTransient_mentions in T.
Qed.

(** Puts what is known of the attempts before attempt [k] into the form
    the loop tests. *)
Ltac faults_before H k :=
  let e := fresh "e" in
  let E := fresh "E" in
  let T := fresh "T" in
  destruct (H k ltac:(unfold MAX_RETRIES; lia)) as (e & E & T);
  apply isTransient_mentions in T.

(** Settles what a failed run leaves to show about the attempts before
    its last one. *)
Ltac faults_known :=
  let j := fresh "j" in
  let Hj := fresh "Hj" in
  intros j Hj;
  repeat (destruct j as [|j];
          [eexists; split; [eassumption|by apply isTransient_mentions]|]);
  lia.

(** Shows that attempt [k] was the last one of a failed run. *)
Ltac last_attempt k :=
  exists k; eexists;
  (split; [unfold MAX_RETRIES; lia|]);
  (split; [faults_known|]);
  (split; [eassumption|]);
  (split; [reflexivity|]);
  first [ left; split; [by apply isTransient_mentions|];
          split; reflexivity
        | right; split; [|reflexivity];
          intros M%isTransient_mentions; congruence ].

(** C3: the client fails in two ways only. Once all three attempts have
    thrown an error whose message contains [internal] or [500], letter
    case ignored, the retries are exhausted and it throws
    [ServiceBusyError]; once an attempt throws an error whose message
    contains neither, no further attempt is made and it throws
    [ExtractionFailedError]. A call that throws has made such a last
    attempt, and throws the one of these two fixed errors that the
    message of that attempt's error selects: the error of the service is
    not passed on. The message of an error is a string, as the type
    [Error] has it. *)
Theorem C3_error_kinds :
  (faultsBefore toLowerCase ai MAX_RETRIES ->
     result_of run = inl ServiceBusyError /\
     requests (log_of run) = Request pages <$> seq 0 MAX_RETRIES) /\
  (forall k e,
     k < MAX_RETRIES -> faultsBefore toLowerCase ai k -> ai k = Threw e ->
     ~ mentionsServerFault toLowerCase (as_Error e) ->
     result_of run = inl ExtractionFailedError /\
     requests (log_of run) = Request pages <$> seq 0 (S k)) /\
  (forall message,
     result_of run = inl message ->
     exists k e,
       k < MAX_RETRIES /\ faultsBefore toLowerCase ai k /\ ai k = Threw e /\
       requests (log_of run) = Request pages <$> seq 0 (S k) /\
       (mentionsServerFault toLowerCase (as_Error e) /\
          S k = MAX_RETRIES /\ message = ServiceBusyError
        \/ ~ mentionsServerFault toLowerCase (as_Error e) /\
          message = ExtractionFailedError)) /\
  ServiceBusyError <> ExtractionFailedError.
Proof.
  split; [|split; [|split; [|apply ServiceBusyError_ne_ExtractionFailedError]]].
  - intros H. faults_before H 0. faults_before H 1. faults_before H 2.
    run_client. split; reflexivity.
  - intros k e Hk H Hthrew Hsilent%isTransient_silent.
    destruct k as [|[|[|k]]]; [| | |unfold MAX_RETRIES in Hk; lia].
    + run_client. split; reflexivity.
    + faults_before H 0. run_client. split; reflexivity.
    + faults_before H 0. faults_before H 1. run_client. split; reflexivity.
  - intros message H. run_client; simplify_eq;
      first [ last_attempt 0 | last_attempt 1 | last_attempt 2 ].
Qed.

(** The text a successful attempt responds with comes back cut and
    trimmed, in this order; it is a piece of the response as it stands. *)
Lemma callGeminiWithRetry_text (k : nat) (text : option jsstring) :
  k < MAX_RETRIES ->
  (forall j, j < k -> failsTransient toLowerCase (ai j)) ->
  ai k = Responded text ->
  result_of run = inr (cutThenTrimmed (default [] text)) /\
  exists pre post,
    default [] text = pre ++ cutThenTrimmed (default [] text) ++ post.
Proof.
  intros Hk Hprev Hok. split; [|apply cutThenTrimmed_verbatim].
  rewrite <- stripFences_cutThenTrimmed.
  destruct k as [|[|[|k]]]; [| | |unfold MAX_RETRIES in Hk; lia].
  - run_client; try done.
  - pose proof (Hprev 0 ltac:(lia)). run_client; try done.
  - pose proof (Hprev 0 ltac:(lia)). pose proof (Hprev 1 ltac:(lia)).
    run_client; try done.
Qed.

End ClientProofs.

(* ===================================================================== *)
(** * CsvMerger *)
(* ===================================================================== *)

Section MergeProofs.

Import MergeSamples.

Lemma mergeChunk_later acc index fragment :
  mergeChunk acc (S index) fragment = acc ++ keptOfLater fragment.
Proof.
  unfold mergeChunk, keptOfLater.
  destruct (nonBlankLines fragment) as [|line0 others].
  - by rewrite app_nil_r.
  - cbn [Nat.eqb]. rewrite test_headerRegex.
    by destruct (isHeaderLine line0).
Qed.

Lemma mergeChunk_first acc fragment :
  mergeChunk acc 0 fragment = acc ++ nonBlankLines fragment.
Proof.
  unfold mergeChunk. destruct (nonBlankLines fragment); [|done].
  by rewrite app_nil_r.
Qed.

Lemma mergeFrom_later index fragments acc :
  mergeFrom (S index) fragments acc = acc ++ concat (keptOfLater <$> fragments).
Proof.
  revert index acc. induction fragments as [|f fs IH]; intros index acc.
  - simpl. by rewrite app_nil_r.
  - cbn [mergeFrom]. rewrite IH, mergeChunk_later.
    rewrite fmap_cons. cbn [concat]. by rewrite <- app_assoc.
Qed.

Lemma merge_mergedLines fragments : merge fragments = mergedLines fragments.
Proof.
  destruct fragments as [|f fs]; [done|].
  unfold merge. cbn [mergeFrom]. by rewrite mergeFrom_later, mergeChunk_first.
Qed.

Lemma elem_of_nonBlankLines fragment line :
  line ∈ nonBlankLines fragment <->
  line ∈ split LF fragment /\ forallb is_ws line = false.
Proof.
  unfold nonBlankLines. rewrite !list_elem_of_In, filter_In.
  apply and_iff_compat_l. unfold str_eqb.
  pose proof (trim_nil_iff line) as Ht.
  destruct (forallb is_ws line).
  - rewrite bool_decide_eq_true_2 by by apply Ht. done.
  - rewrite bool_decide_eq_false_2; [done|]. intros E. apply Ht in E. done.
Qed.

(** C5: the merged lines are the non-blank lines of the first fragment,
    all of them and in order, followed for each later fragment, in order,
    by its non-blank lines without the first one if that line starts with
    the header pattern in any letter case, and by all of them otherwise. *)
Theorem C5_merge (fragments : list jsstring) :
  merge fragments = mergedLines fragments /\
  (forall fragment line,
     line ∈ nonBlankLines fragment <->
     line ∈ split LF fragment /\ forallb is_ws line = false) /\
  (forall line, test true headerRegex line = isHeaderLine line) /\
  merge [fragmentA; fragmentB] = [headerLine; js "A,1"; js "B,2"] /\
  merge [fragmentA; fragmentBare] =
    [headerLine; js "A,1"; js "A,1"; js "B,2"].
Proof.
  split; [apply merge_mergedLines|].
  split; [apply elem_of_nonBlankLines|].
  split; [apply test_headerRegex|].
  split; vm_compute; reflexivity.
Qed.

Lemma keptOfLater_no_header fragment :
  (forall i line, 0 < i -> nonBlankLines fragment !! i = Some line ->
     isHeaderLine line = false) ->
  Forall (fun line => isHeaderLine line = false) (keptOfLater fragment).
Proof.
  intros H. unfold keptOfLater.
  destruct (nonBlankLines fragment) as [|line0 others]; [constructor|].
  assert (Forall (fun line => isHeaderLine line = false) others) as Ho.
  { apply Forall_lookup. intros i line Hi. apply (H (S i)); [lia|done]. }
  destruct (isHeaderLine line0) eqn:E; [done|]. by constructor.
Qed.

(** C1, as the code has it: when the first fragment opens with a header
    line and no fragment holds a header line after its first non-blank
    line, line 0 of the merged output is that header line and no other
    merged line matches the header pattern. *)
Theorem C1_header_only_first (first : jsstring) (later : list jsstring)
    (line0 : jsstring) (others : list jsstring) :
  nonBlankLines first = line0 :: others ->
  isHeaderLine line0 = true ->
  (forall fragment i line,
     fragment ∈ first :: later -> 0 < i ->
     nonBlankLines fragment !! i = Some line -> isHeaderLine line = false) ->
  merge (first :: later) !! 0 = Some line0 /\
  headerOnlyFirst (merge (first :: later)).
Proof.
  intros Hfirst Hhdr Hrest. rewrite merge_mergedLines. cbn [mergedLines].
  rewrite Hfirst. split; [done|]. split.
  - intros line [= <-]. done.
  - intros [|i] line Hi; [lia|]. cbn [app]. rewrite lookup_cons.
    intros [Hin|[_ Hin]]%lookup_app_Some.
    + apply (Hrest first (S i)); [left|lia|]. by rewrite Hfirst.
    + apply list_elem_of_lookup_2, list_elem_of_In, in_concat in Hin
        as (kept & Hkept & Hline).
      apply list_elem_of_In in Hline.
      apply list_elem_of_In, list_elem_of_fmap in Hkept
        as (fragment & -> & Hf).
      pose proof (keptOfLater_no_header fragment) as Hk.
      rewrite Forall_forall in Hk. apply Hk; [|done].
      intros j l Hj. apply Hrest; [by right|done].
Qed.

Lemma C1_header_only_first_witness :
  merge [fragmentA; fragmentB] !! 0 = Some headerLine /\
  headerOnlyFirst (merge [fragmentA; fragmentB]).
Proof.
  apply (C1_header_only_first fragmentA [fragmentB] headerLine [js "A,1"]).
  - vm_compute. reflexivity.
  - vm_compute. reflexivity.
  - intros fragment i line Hf Hi.
    apply elem_of_cons in Hf as [->|Hf];
      [|apply elem_of_cons in Hf as [->|Hf]; [|by apply elem_of_nil in Hf]].
    + destruct i as [|[|i]]; [lia| |]; vm_compute; intros [= <-]; reflexivity.
    + destruct i as [|[|i]]; [lia| |]; vm_compute; intros [= <-]; reflexivity.
Defined.

(** C1 as stated fails: a later fragment that opens with anything but the
    header keeps every line, a repeated header among them. *)
Lemma C1_counterexample :
  ~ (forall fragments, headerOnlyFirst (merge fragments)).
Proof.
  intros H. destruct (H [fragmentA; fragmentNote]) as [_ Hno].
  specialize (Hno 3 headerLine ltac:(lia) ltac:(vm_compute; reflexivity)).
  vm_compute in Hno. discriminate.
Qed.

(** Nor is line 0 checked: a first fragment without a header gives a
    merged output whose line 0 is a data line. *)
Example merge_first_line_unchecked :
  merge [fragmentBare] = [js "A,1"; js "B,2"] /\
  ~ headerOnlyFirst (merge [fragmentBare]).
Proof.
  split; [vm_compute; reflexivity|]. intros [H0 _].
  specialize (H0 (js "A,1") ltac:(vm_compute; reflexivity)).
  vm_compute in H0. discriminate.
Qed.

End MergeProofs.

(* ===================================================================== *)
(** * The pipeline: chunks, extraction calls, the merged result *)
(* ===================================================================== *)

Section MonadLemmas.

Context {A B : Type}.

Lemma result_of_bind (m : M A) (f : A -> M B) :
  result_of (bind m f) =
  match result_of m with
  | inl err => inl err
  | inr a => result_of (f a)
  end.
Proof.
  destruct m as [log [err|a]]; [done|]. simpl. by destruct (f a).
Qed.

Lemma log_of_bind (m : M A) (f : A -> M B) :
  log_of (bind m f) =
  log_of m ++ match result_of m with
              | inl _ => []
              | inr a => log_of (f a)
              end.
Proof.
  destruct m as [log [err|a]]; simpl; [by rewrite app_nil_r|].
  by destruct (f a).
Qed.

End MonadLemmas.

Section ChunkArithmetic.

Lemma chunkCount_spec n j : j < chunkCount n <-> j * CHUNK_SIZE < n.
Proof.
  unfold chunkCount, CHUNK_SIZE.
  pose proof (Nat.div_mod_eq (n + 20 - 1) 20).
  pose proof (Nat.mod_upper_bound (n + 20 - 1) 20). lia.
Qed.

(** [chunkCount n] is the ceiling of [n / 20]. *)
Lemma chunkCount_ceiling n :
  0 < n ->
  (chunkCount n - 1) * CHUNK_SIZE < n /\ n <= chunkCount n * CHUNK_SIZE.
Proof.
  intros Hn. pose proof (chunkCount_spec n (chunkCount n - 1)).
  pose proof (chunkCount_spec n (chunkCount n)).
  pose proof (chunkCount_spec n 0). lia.
Qed.

Lemma length_chunkPages n j :
  j < chunkCount n ->
  0 < length (chunkPages n j) /\ length (chunkPages n j) <= CHUNK_SIZE.
Proof.
  intros Hj%chunkCount_spec. unfold chunkPages. rewrite length_seq.
  unfold CHUNK_SIZE in *. lia.
Qed.

Lemma concat_chunkPages n j m :
  j + m = chunkCount n ->
  concat (chunkPages n <$> seq j m) = seq (j * CHUNK_SIZE) (n - j * CHUNK_SIZE).
Proof.
  revert j. induction m as [|m IH]; intros j Hj.
  - simpl. pose proof (chunkCount_spec n j).
    replace (n - j * CHUNK_SIZE) with 0 by lia. done.
  - cbn [seq fmap list_fmap concat]. rewrite IH by lia.
    assert (j * CHUNK_SIZE < n) as Hlt by (apply chunkCount_spec; lia).
    unfold chunkPages. unfold CHUNK_SIZE in *.
    destruct (le_lt_dec ((j + 1) * 20) n) as [Hle|Hgt].
    + replace (S j * 20) with (j * 20 + (Nat.min ((j + 1) * 20) n - j * 20))
        by lia.
      rewrite <- seq_app. f_equal. lia.
    + replace (n - S j * 20) with 0 by lia. cbn [seq]. rewrite app_nil_r.
      f_equal. lia.
Qed.

End ChunkArithmetic.

Section PipelineProofs.

Variable toLowerCase : jsstring -> jsstring.
Variable apiKey : option jsstring.
Variable pageCount : nat.
Variable service : nat -> nat -> attempt_result.

#[local] Abbreviation loop := (chunkLoop toLowerCase pageCount service).
#[local] Abbreviation convert :=
  (convertPdfToCsv toLowerCase apiKey pageCount service).
#[local] Abbreviation extract := (extraction toLowerCase service pageCount).

Lemma chunkLoop_done fuel i acc : pageCount <= i -> loop fuel i acc = ret acc.
Proof.
  intros Hi. destruct fuel; [done|]. cbn [chunkLoop].
  by rewrite (proj2 (Nat.ltb_ge i pageCount)).
Qed.

Lemma chunkLoop_step fuel j acc :
  j * CHUNK_SIZE < pageCount ->
  loop (S fuel) (j * CHUNK_SIZE) acc =
  bind (emit (Progress (Processing (j * CHUNK_SIZE + 1)
                          (Nat.min (j * CHUNK_SIZE + CHUNK_SIZE) pageCount)
                          pageCount)))
    (fun _ => bind (extract j)
       (fun chunkCsv =>
          loop fuel (S j * CHUNK_SIZE)
            (if truthy chunkCsv then acc ++ [chunkCsv] else acc))).
Proof.
  intros Hlt. cbn [chunkLoop]. rewrite (proj2 (Nat.ltb_lt _ _) Hlt).
  unfold extract, extraction, pageIndices, chunkPages.
  replace ((j + 1) * CHUNK_SIZE) with (j * CHUNK_SIZE + CHUNK_SIZE) by lia.
  replace (S j * CHUNK_SIZE) with (j * CHUNK_SIZE + CHUNK_SIZE) by lia.
  done.
Qed.

(** The loop leaves through its guard: any fuel from [pageCount - i] on
    gives the same run. *)
Lemma chunkLoop_fuel fuel fuel' i acc :
  pageCount - i <= fuel -> pageCount - i <= fuel' ->
  loop fuel i acc = loop fuel' i acc.
Proof.
  revert fuel' i acc. induction fuel as [|fuel IH]; intros fuel' i acc H H'.
  - rewrite (chunkLoop_done fuel') by lia. by rewrite chunkLoop_done by lia.
  - destruct fuel' as [|fuel'].
    + rewrite (chunkLoop_done (S fuel)) by lia. by rewrite chunkLoop_done by lia.
    + cbn [chunkLoop]. destruct (i <? pageCount); [|done].
      unfold bind at 1 3. cbn [emit].
      destruct (callGeminiWithRetry _ _ _) as [log [err|chunkCsv]]; [done|].
      cbn [bind]. rewrite (IH fuel'); [done| |];
        unfold CHUNK_SIZE; lia.
Qed.

(** A call of the client is one extraction call, whatever its attempts. *)
Lemma extractionCalls_client ai pages :
  extractionCalls (log_of (callGeminiWithRetry toLowerCase ai pages)) = [pages].
Proof.
  destruct (callGeminiWithRetry_log_head toLowerCase ai pages)
    as (log' & -> & Hlog').
  unfold extractionCalls. cbn [omap list_omap]. f_equal.
  induction Hlog' as [|e log' He _ IH]; [done|].
  cbn [omap list_omap]. by destruct e as [?|? [|?]|?].
Qed.

Lemma extractionCalls_app l1 l2 :
  extractionCalls (l1 ++ l2) = extractionCalls l1 ++ extractionCalls l2.
Proof. apply omap_app. Qed.

Lemma extractionCalls_extract j :
  extractionCalls (log_of (extract j)) = [chunkPages pageCount j].
Proof. apply extractionCalls_client. Qed.

(** A failed call throws one of the client's two errors. *)
Lemma client_error ai pages message :
  result_of (callGeminiWithRetry toLowerCase ai pages) = inl message ->
  message = ServiceBusyError \/ message = ExtractionFailedError.
Proof.
  unfold callGeminiWithRetry, MAX_RETRIES.
  cbn [retryLoop bind emit ret throw].
  repeat match goal with
         | |- context [giveUp] => unfold giveUp
         | |- context [match ai ?k with _ => _ end] => destruct (ai k)
         | |- context [if isTransient ?f ?m then _ else _] =>
             destruct (isTransient f m)
         | _ => progress cbn [retryLoop bind emit ret throw result_of snd
                               Nat.ltb Nat.leb Nat.sub MAX_RETRIES]
         end;
  intros [= <-]; auto.
Qed.

(** A call that returns, returns trimmed text. *)
Lemma client_result_trimmed ai pages text :
  result_of (callGeminiWithRetry toLowerCase ai pages) = inr text ->
  exists raw, text = trim raw.
Proof.
  unfold callGeminiWithRetry, MAX_RETRIES, stripFences.
  cbn [retryLoop bind emit ret throw].
  repeat match goal with
         | |- context [giveUp] => unfold giveUp
         | |- context [match ai ?k with _ => _ end] => destruct (ai k)
         | |- context [if isTransient ?f ?m then _ else _] =>
             destruct (isTransient f m)
         | _ => progress cbn [retryLoop bind emit ret throw result_of snd
                               Nat.ltb Nat.leb Nat.sub MAX_RETRIES]
         end;
  intros [= <-]; eauto.
Qed.

(** The extraction calls of the loop are a prefix of the chunks still to
    come, and an error of the loop is an error of the client. *)
Lemma chunkLoop_general m :
  forall j fuel acc,
    j + m = chunkCount pageCount ->
    pageCount - j * CHUNK_SIZE <= fuel ->
    extractionCalls (log_of (loop fuel (j * CHUNK_SIZE) acc))
      `prefix_of` (chunkPages pageCount <$> seq j m) /\
    (forall message,
       result_of (loop fuel (j * CHUNK_SIZE) acc) = inl message ->
       message = ServiceBusyError \/ message = ExtractionFailedError).
Proof.
  induction m as [|m IH]; intros j fuel acc Hj Hfuel.
  - pose proof (chunkCount_spec pageCount j).
    rewrite chunkLoop_done by lia. split; [done|]. intros message [=].
  - assert (j * CHUNK_SIZE < pageCount) as Hlt by (apply chunkCount_spec; lia).
    destruct fuel as [|fuel]; [lia|]. rewrite chunkLoop_step by done.
    rewrite !log_of_bind, !result_of_bind. cbn [emit log_of result_of fst snd].
    rewrite !extractionCalls_app, extractionCalls_extract.
    cbn [seq fmap list_fmap app].
    change (extractionCalls [Progress ?p]) with (@nil (list nat)).
    cbn [app].
    destruct (result_of (extract j)) as [err|chunkCsv] eqn:Er.
    + split.
      * apply prefix_cons, prefix_nil.
      * intros message [= <-]. by apply client_error in Er.
    + destruct (IH (S j) fuel
                  (if truthy chunkCsv then acc ++ [chunkCsv] else acc))
        as [Hp He]; [lia|unfold CHUNK_SIZE in *; lia|].
      split; [by apply prefix_cons|exact He].
Qed.

(** When every extraction returns, the loop calls the client once for
    each chunk and collects the texts that are not empty. *)
Lemma chunkLoop_all_returned m :
  forall j fuel acc,
    j + m = chunkCount pageCount ->
    pageCount - j * CHUNK_SIZE <= fuel ->
    (forall i, j <= i -> i < j + m ->
       exists text, result_of (extract i) = inr text) ->
    extractionCalls (log_of (loop fuel (j * CHUNK_SIZE) acc))
      = chunkPages pageCount <$> seq j m /\
    result_of (loop fuel (j * CHUNK_SIZE) acc)
      = inr (acc ++ List.filter truthy
                      ((fun i => textOf (extract i)) <$> seq j m)).
Proof.
  induction m as [|m IH]; intros j fuel acc Hj Hfuel Hok.
  - pose proof (chunkCount_spec pageCount j).
    rewrite chunkLoop_done by lia. simpl. by rewrite app_nil_r.
  - assert (j * CHUNK_SIZE < pageCount) as Hlt by (apply chunkCount_spec; lia).
    destruct fuel as [|fuel]; [lia|]. rewrite chunkLoop_step by done.
    rewrite !log_of_bind, !result_of_bind. cbn [emit log_of result_of fst snd].
    rewrite !extractionCalls_app, extractionCalls_extract.
    cbn [seq fmap list_fmap app List.filter].
    change (extractionCalls [Progress ?p]) with (@nil (list nat)).
    cbn [app].
    destruct (Hok j) as [chunkCsv Er]; [lia|lia|].
    assert (textOf (extract j) = chunkCsv) as ->
      by (unfold textOf; by rewrite Er).
    rewrite Er.
    destruct (IH (S j) fuel
                (if truthy chunkCsv then acc ++ [chunkCsv] else acc))
      as [Hc Hr]; [lia|unfold CHUNK_SIZE in *; lia| |].
    { intros i ? ?. apply Hok; lia. }
    rewrite Hr, Hc. split; [done|].
    destruct (truthy chunkCsv); [by rewrite <- app_assoc|done].
Qed.

Lemma error_messages_distinct :
  ConfigurationError <> EmptyResultError /\
  InvalidDocumentError <> EmptyResultError /\
  ServiceBusyError <> EmptyResultError /\
  ExtractionFailedError <> EmptyResultError.
Proof. repeat split; vm_compute; discriminate. Qed.

(** The pipeline once the key is there and the document has pages. *)
Lemma convert_running :
  truthy (default [] apiKey) = true ->
  pageCount <> 0 ->
  log_of convert =
    Progress Loading :: log_of (loop pageCount 0 []) ++
    match result_of (loop pageCount 0 []) with
    | inl _ => []
    | inr fragments =>
        Progress Combining ::
        (if length (merge fragments) <? 2 then [] else [Progress Correcting])
    end /\
  result_of convert =
    match result_of (loop pageCount 0 []) with
    | inl err => inl err
    | inr fragments =>
        if length (merge fragments) <? 2 then inl EmptyResultError
        else inr (join [LF] (Some <$> applyFillDownLogic (merge fragments)))
    end.
Proof.
  intros Hkey Hn. unfold convertPdfToCsv. rewrite Hkey. cbn [negb].
  rewrite (proj2 (Nat.eqb_neq pageCount 0) Hn).
  rewrite !log_of_bind, !result_of_bind. cbn [emit log_of result_of fst snd app].
  destruct (result_of (loop pageCount 0 [])) as [err|fragments]; [done|].
  rewrite !log_of_bind, !result_of_bind. cbn [emit log_of result_of fst snd app].
  by destruct (length (merge fragments) <? 2).
Qed.

Lemma extractionCalls_convert :
  truthy (default [] apiKey) = true ->
  pageCount <> 0 ->
  extractionCalls (log_of convert) =
  extractionCalls (log_of (loop pageCount 0 [])).
Proof.
  intros Hkey Hn. destruct (convert_running Hkey Hn) as [-> _].
  change (?e :: ?l ++ ?k) with ([e] ++ l ++ k).
  rewrite !extractionCalls_app. cbn [extractionCalls omap list_omap app].
  destruct (result_of (loop pageCount 0 [])) as [err|fragments].
  - by rewrite app_nil_r.
  - destruct (length (merge fragments) <? 2); cbn [omap list_omap];
      by rewrite app_nil_r.
Qed.

(** C6: a document without pages is refused with [InvalidDocumentError]
    before any request; otherwise the chunks are the ceiling of N/20 page
    ranges [20j, min(20(j+1), N)), which follow one another and make up
    [0, N) in order; the extraction calls are made on these chunks in
    order, on all of them when every extraction returns, so a document of
    45 pages gives three extraction calls. *)
Theorem C6_chunking :
  (truthy (default [] apiKey) = true -> pageCount = 0 ->
     result_of convert = inl InvalidDocumentError /\
     requests (log_of convert) = []) /\
  (length (chunks pageCount) = chunkCount pageCount /\
   (0 < pageCount ->
      (chunkCount pageCount - 1) * CHUNK_SIZE < pageCount /\
      pageCount <= chunkCount pageCount * CHUNK_SIZE) /\
   (forall j, j < chunkCount pageCount ->
      chunks pageCount !! j =
        Some (seq (j * CHUNK_SIZE)
                (Nat.min ((j + 1) * CHUNK_SIZE) pageCount - j * CHUNK_SIZE))) /\
   (forall j, j < chunkCount pageCount ->
      0 < length (chunkPages pageCount j) /\
      length (chunkPages pageCount j) <= CHUNK_SIZE) /\
   concat (chunks pageCount) = seq 0 pageCount) /\
  (truthy (default [] apiKey) = true -> 0 < pageCount ->
     extractionCalls (log_of convert) `prefix_of` chunks pageCount) /\
  (truthy (default [] apiKey) = true -> 0 < pageCount ->
     (forall j, j < chunkCount pageCount ->
        exists text, result_of (extract j) = inr text) ->
     extractionCalls (log_of convert) = chunks pageCount) /\
  (truthy (default [] apiKey) = true -> pageCount = 45 ->
     (forall j, j < 3 -> exists text, result_of (extract j) = inr text) ->
     length (extractionCalls (log_of convert)) = 3).
Proof.
  assert (truthy (default [] apiKey) = true -> 0 < pageCount ->
     (forall j, j < chunkCount pageCount ->
        exists text, result_of (extract j) = inr text) ->
     extractionCalls (log_of convert) = chunks pageCount) as Hall.
  { intros Hkey Hn Hok. rewrite extractionCalls_convert by (done || lia).
    destruct (chunkLoop_all_returned (chunkCount pageCount) 0 pageCount [])
      as [Hc _]; [done|simpl; lia|intros; apply Hok; lia|]. exact Hc. }
  split; [|split; [|split; [|split]]].
  - intros Hkey ->. unfold convertPdfToCsv. rewrite Hkey. done.
  - split; [|split; [|split; [|split]]].
    + unfold chunks. by rewrite length_fmap, length_seq.
    + apply chunkCount_ceiling.
    + intros j Hj. unfold chunks. rewrite list_lookup_fmap.
      by rewrite lookup_seq_lt.
    + apply length_chunkPages.
    + unfold chunks. rewrite concat_chunkPages by done. simpl. f_equal. lia.
  - intros Hkey Hn. rewrite extractionCalls_convert by (done || lia).
    destruct (chunkLoop_general (chunkCount pageCount) 0 pageCount [])
      as [Hp _]; [done|simpl; lia|]. exact Hp.
  - exact Hall.
  - intros Hkey Hn Hok. rewrite Hall; [|done|lia|].
    + subst pageCount. reflexivity.
    + subst pageCount. exact Hok.
Qed.

(** C9: the pipeline throws [EmptyResultError] exactly when it gets as far
    as merging and the merged output has fewer than two lines; with two
    lines or more it returns the corrected lines joined; an error is never
    accompanied by a CSV string. *)
Theorem C9_empty_result :
  (result_of convert = inl EmptyResultError <->
   truthy (default [] apiKey) = true /\ pageCount <> 0 /\
   exists fragments,
     result_of (loop pageCount 0 []) = inr fragments /\
     length (merge fragments) < 2) /\
  (forall fragments,
     truthy (default [] apiKey) = true -> pageCount <> 0 ->
     result_of (loop pageCount 0 []) = inr fragments ->
     2 <= length (merge fragments) ->
     result_of convert =
       inr (join [LF] (Some <$> applyFillDownLogic (merge fragments)))) /\
  (result_of convert = inl EmptyResultError ->
   forall csv, result_of convert <> inr csv).
Proof.
  destruct error_messages_distinct as (Hc & Hi & Hb & Hf).
  split; [|split].
  - split.
    + intros H. destruct (truthy (default [] apiKey)) eqn:Hkey.
      2:{ unfold convertPdfToCsv in H. rewrite Hkey in H.
          injection H as H. by destruct Hc. }
      destruct (Nat.eq_dec pageCount 0) as [Hz|Hn].
      { unfold convertPdfToCsv in H. rewrite Hkey, Hz in H.
        injection H as H. by destruct Hi. }
      split; [done|]. split; [done|].
      destruct (convert_running Hkey Hn) as [_ Hr]. rewrite Hr in H.
      destruct (result_of (loop pageCount 0 [])) as [err|fragments] eqn:El.
      * injection H as ->.
        destruct (chunkLoop_general (chunkCount pageCount) 0 pageCount [])
          as [_ He]; [done|simpl; lia|].
        destruct (He _ El) as [E|E]; [by destruct Hb|by destruct Hf].
      * exists fragments. split; [done|].
        destruct (Nat.ltb_spec (length (merge fragments)) 2); [done|].
        discriminate.
    + intros (Hkey & Hn & fragments & El & Hlen).
      destruct (convert_running Hkey Hn) as [_ ->]. rewrite El.
      by rewrite (proj2 (Nat.ltb_lt _ _) Hlen).
  - intros fragments Hkey Hn El Hlen.
    destruct (convert_running Hkey Hn) as [_ ->]. rewrite El.
    by rewrite (proj2 (Nat.ltb_ge _ _) Hlen).
  - intros -> csv. discriminate.
Qed.

Lemma filter_truthy_nil (texts : list jsstring) :
  (forall t, t ∈ texts -> t = []) -> List.filter truthy texts = [].
Proof.
  induction texts as [|t texts IH]; intros H; [done|].
  cbn [List.filter]. rewrite (H t) by left. cbn [truthy].
  apply IH. intros t' Ht'. apply H. by right.
Qed.

Lemma nonBlankLines_trimmed raw :
  trim raw <> [] ->
  exists line0 others, nonBlankLines (trim raw) = line0 :: others.
Proof.
  intros Hne. destruct (trim raw) as [|c s] eqn:E; [done|].
  pose proof (trim_head _ _ _ E) as Hc.
  assert ((c =? LF)%N = false) as Hlf.
  { destruct (N.eqb_spec c LF) as [->|]; [|done]. done. }
  unfold nonBlankLines. cbn [split]. rewrite Hlf.
  destruct (split LF s) as [|f fs] eqn:Es; [by destruct (split_not_nil LF s)|].
  cbn [List.filter].
  assert (trim (c :: f) <> []) as Ht.
  { intros Ht%trim_nil_iff. simpl in Ht. by rewrite Hc in Ht. }
  unfold str_eqb. rewrite bool_decide_eq_false_2 by done. cbn [negb]. eauto.
Qed.

(** C10: when every extraction returns, the fragments merged are the texts
    that are not empty, in order; the lines of the first such text open the
    merged output, its first line as line 0; when every text is empty the
    pipeline throws [EmptyResultError]. *)
Theorem C10_empty_chunks_skipped :
  truthy (default [] apiKey) = true ->
  pageCount <> 0 ->
  (forall j, j < chunkCount pageCount ->
     exists text, result_of (extract j) = inr text) ->
  let texts := (fun j => textOf (extract j)) <$> seq 0 (chunkCount pageCount) in
  let fragments := List.filter truthy texts in
  result_of (loop pageCount 0 []) = inr fragments /\
  (forall j text,
     texts !! j = Some text -> text <> [] ->
     (forall i t, i < j -> texts !! i = Some t -> t = []) ->
     exists line0 others,
       nonBlankLines text = line0 :: others /\
       merge fragments !! 0 = Some line0 /\
       (line0 :: others) `prefix_of` merge fragments) /\
  ((forall t, t ∈ texts -> t = []) ->
   result_of convert = inl EmptyResultError).
Proof.
  intros Hkey Hn Hok texts fragments.
  destruct (chunkLoop_all_returned (chunkCount pageCount) 0 pageCount [])
    as [_ Hr]; [done|simpl; lia|intros; apply Hok; lia|].
  change (result_of (loop pageCount 0 []) = inr fragments) in Hr.
  split; [exact Hr|]. split.
  - intros j text Hj Hne Hbefore.
    assert (exists raw, text = trim raw) as [raw ->].
    { unfold texts in Hj. rewrite list_lookup_fmap in Hj.
      destruct (seq 0 (chunkCount pageCount) !! j) as [i|] eqn:Ei; [|done].
      apply lookup_seq in Ei as [-> Hi]. injection Hj as <-.
      destruct (Hok _ Hi) as [text Et]. unfold textOf. rewrite Et.
      by apply client_result_trimmed in Et. }
    destruct (nonBlankLines_trimmed raw Hne) as (line0 & others & El).
    exists line0, others. split; [done|].
    assert (fragments = trim raw :: List.filter truthy (drop (S j) texts))
      as ->.
    { unfold fragments. rewrite <- (take_drop_middle texts j _ Hj) at 1.
      rewrite List.filter_app. cbn [List.filter].
      destruct (trim raw) as [|c s] eqn:Et; [done|]. cbn [truthy].
      rewrite filter_truthy_nil; [done|].
      intros t Ht. apply list_elem_of_lookup in Ht as [i Hi].
      apply lookup_take_Some in Hi as [Hi Hlt].
      by apply (Hbefore i t Hlt Hi). }
    rewrite merge_mergedLines. cbn [mergedLines]. rewrite El.
    split; [done|]. by apply prefix_app_r.
  - intros Hall. destruct (convert_running Hkey Hn) as [_ ->]. rewrite Hr.
    unfold fragments. by rewrite filter_truthy_nil.
Qed.

End PipelineProofs.

(* ===================================================================== *)
(** * FillDownCorrector *)
(* ===================================================================== *)

Section RowLemmas.

Implicit Types (a r : row) (v c : option jsstring).

Lemma at_index_cons_S c a i : at_index (c :: a) (S i) = at_index a i.
Proof. done. Qed.

Lemma length_assign a i v : length (assign a i v) = Nat.max (length a) (S i).
Proof.
  revert a. induction i as [|i IH]; intros [|x a]; simpl;
    rewrite ?IH; simpl; lia.
Qed.

Lemma assign_not_nil a i v : assign a i v <> [].
Proof. by destruct i, a. Qed.

Lemma at_index_assign_eq a i v : at_index (assign a i v) i = v.
Proof.
  revert a. induction i as [|i IH]; intros [|x a]; simpl; try done;
    rewrite at_index_cons_S; apply IH.
Qed.

Lemma at_index_assign_ne a i j v :
  i <> j -> at_index (assign a i v) j = at_index a j.
Proof.
  revert a j. induction i as [|i IH]; intros [|x a] [|j] Hne; simpl;
    try done; rewrite ?at_index_cons_S;
    first [ by rewrite IH by lia | apply IH; lia ].
Qed.

Lemma assign_id a i v : i < length a -> at_index a i = v -> assign a i v = a.
Proof.
  revert a. induction i as [|i IH]; intros [|x a] Hlt Hv; simpl in *;
    try lia.
  - by rewrite <- Hv.
  - f_equal. apply IH; [lia|done].
Qed.

Lemma length_plainRow r : length (plainRow r) = length r.
Proof. apply length_fmap. Qed.

Lemma unquote_cell c : unquote (Some (cell_text c)) = unquote c.
Proof. destruct c; [done|]. vm_compute. reflexivity. Qed.

(** Reading holes as empty fields goes through [assign] and [at_index]. *)
Lemma plainRow_assign_congr a a' i v v' :
  plainRow a = plainRow a' -> cell_text v = cell_text v' ->
  plainRow (assign a i v) = plainRow (assign a' i v').
Proof.
  intros Ha Hv. revert a a' Ha.
  induction i as [|i IH]; intros [|x a] [|x' a'] Ha;
    try discriminate Ha; cbn [assign]; unfold plainRow in *;
    rewrite ?fmap_cons in *; simplify_eq; rewrite ?Hv; try done.
  - by f_equal.
  - f_equal. by apply (IH [] []).
  - f_equal; [congruence|]. by apply IH.
Qed.

Lemma cell_text_at_index_congr r r' i :
  plainRow r = plainRow r' ->
  cell_text (at_index r i) = cell_text (at_index r' i).
Proof.
  intros H. apply (f_equal (.!! i)) in H. unfold plainRow in H.
  rewrite !list_lookup_fmap in H. unfold at_index.
  destruct (r !! i), (r' !! i); simpl in *; congruence.
Qed.

Lemma unquote_at_index_congr r r' i :
  plainRow r = plainRow r' ->
  unquote (at_index r i) = unquote (at_index r' i).
Proof.
  intros H. rewrite <- (unquote_cell (at_index r i)).
  rewrite <- (unquote_cell (at_index r' i)).
  by rewrite (cell_text_at_index_congr r r' i H).
Qed.

Lemma length_plainRow_congr r r' :
  plainRow r = plainRow r' -> length r = length r'.
Proof.
  intros H. apply (f_equal length) in H. by rewrite !length_plainRow in H.
Qed.

Lemma join_plainRow sep r : join sep (plainRow r) = join sep r.
Proof.
  induction r as [|c r IH]; [done|].
  destruct r as [|c' r]; [by destruct c|].
  unfold plainRow in *. rewrite fmap_cons.
  rewrite !join_cons by done. rewrite IH. by destruct c.
Qed.

Lemma plainRow_idemp r : plainRow (plainRow r) = plainRow r.
Proof.
  unfold plainRow. rewrite <- list_fmap_compose. by apply list_fmap_ext.
Qed.

(** Rows without commas inside their fields. *)
Lemma splitRow_commaFree line : commaFree (splitRow line).
Proof.
  split.
  - unfold splitRow. pose proof (split_not_nil COMMA line).
    by destruct (split COMMA line).
  - unfold splitRow. apply Forall_fmap.
    eapply Forall_impl; [apply split_no_sep|]. done.
Qed.

Lemma at_index_commaFree r i :
  commaFree r -> COMMA ∉ cell_text (at_index r i).
Proof.
  intros [_ H]. unfold at_index. destruct (r !! i) as [c|] eqn:E; simpl.
  - by eapply (proj1 (Forall_lookup _ _) H).
  - apply not_elem_of_nil.
Qed.

Lemma assign_commaFree a i v :
  commaFree a -> COMMA ∉ cell_text v -> commaFree (assign a i v).
Proof.
  intros [_ Ha] Hv. split; [apply assign_not_nil|].
  revert a Ha. induction i as [|i IH]; intros [|x a] Ha; simpl.
  - by constructor.
  - inversion Ha; subst. by constructor.
  - constructor; [apply not_elem_of_nil|]. by apply IH.
  - inversion Ha; subst. constructor; [done|]. by apply IH.
Qed.

Lemma splitRow_join r :
  commaFree r -> splitRow (join [COMMA] r) = plainRow r.
Proof.
  intros [Hne Hall]. unfold splitRow, plainRow.
  rewrite split_join by done. by rewrite <- list_fmap_compose.
Qed.

End RowLemmas.

Section FillRowLemmas.

Variables rn pt pa : nat.

#[local] Abbreviation fill := (fillRow rn pt pa).

(** A step either leaves the row or writes the two fields of the row
    before it, under the guards of the source. *)
Lemma fillRow_cases (p c : row) :
  fill p c = c \/
  (rn < length p /\ rn < length c /\
   truthy (unquote (at_index c rn)) = true /\
   unquote (at_index c rn) = unquote (at_index p rn) /\
   (unquote (at_index c pt) = [] \/ unquote (at_index c pa) = []) /\
   Nat.max pt pa < length p /\
   fill p c = assign (assign c pt (at_index p pt)) pa (at_index p pa)).
Proof.
  unfold fillRow.
  destruct (Nat.leb_spec (length p) rn); [by left|].
  destruct (Nat.leb_spec (length c) rn); [by left|]. cbn [orb].
  destruct (truthy (unquote (at_index c rn))) eqn:Ht; [|by left].
  unfold str_eqb. case_bool_decide as Heq; [|by left]. cbn [andb].
  destruct (negb (truthy (unquote (at_index c pt)))
            || negb (truthy (unquote (at_index c pa)))) eqn:Hblank;
    [|by left].
  destruct (Nat.ltb_spec (Nat.max pt pa) (length p)); [|by left].
  right. repeat split; try done.
  apply orb_prop in Hblank as [Hb|Hb]; [left|right];
    apply negb_true_iff in Hb;
    match type of Hb with truthy ?x = false => by destruct x end.
Qed.

Lemma fillRow_short (p c : row) : length c <= rn -> fill p c = c.
Proof.
  intros H. unfold fillRow.
  rewrite (proj2 (Nat.leb_le (length c) rn) H). by rewrite orb_true_r.
Qed.

(** A row that the step has corrected is left by the step. *)
Lemma fillRow_idem (p c : row) : fill p (fill p c) = fill p c.
Proof.
  destruct (fillRow_cases p c) as [E|(Hp & Hc & Ht & Heq & Hblank & Hmax & ->)].
  { rewrite E. exact E. }
  set (c' := assign (assign c pt (at_index p pt)) pa (at_index p pa)).
  assert (at_index c' pa = at_index p pa) as Ea
    by apply at_index_assign_eq.
  assert (at_index c' pt = at_index p pt) as Et.
  { unfold c'. destruct (Nat.eq_dec pa pt) as [->|Hne].
    - apply at_index_assign_eq.
    - rewrite at_index_assign_ne by done. apply at_index_assign_eq. }
  assert (pt < length c' /\ pa < length c') as [Hlt Hla].
  { unfold c'. rewrite !length_assign. lia. }
  destruct (fillRow_cases p c') as [->|(_ & _ & _ & _ & _ & _ & ->)]; [done|].
  rewrite (assign_id c' pt) by done. by rewrite assign_id.
Qed.

(** The step reads holes and empty fields alike. *)
Lemma fillRow_congr (p p' c c' : row) :
  plainRow p = plainRow p' -> plainRow c = plainRow c' ->
  plainRow (fill p c) = plainRow (fill p' c').
Proof.
  intros Hp Hc. unfold fillRow.
  rewrite (length_plainRow_congr _ _ Hp), (length_plainRow_congr _ _ Hc).
  rewrite !(unquote_at_index_congr _ _ _ Hp), !(unquote_at_index_congr _ _ _ Hc).
  repeat match goal with
         | |- context [if ?b then _ else _] => destruct b
         end; try done.
  apply plainRow_assign_congr; [|by apply cell_text_at_index_congr].
  apply plainRow_assign_congr; [done|by apply cell_text_at_index_congr].
Qed.

Lemma fillRow_commaFree (p c : row) :
  commaFree p -> commaFree c -> commaFree (fill p c).
Proof.
  intros Hp Hc.
  destruct (fillRow_cases p c) as [->|(_ & _ & _ & _ & _ & _ & ->)]; [done|].
  apply assign_commaFree; [|by apply at_index_commaFree].
  apply assign_commaFree; [done|by apply at_index_commaFree].
Qed.

Lemma fillRows_idem (p : row) (rows : list row) :
  fillRows rn pt pa p (fillRows rn pt pa p rows) = fillRows rn pt pa p rows.
Proof.
  revert p. induction rows as [|c rows IH]; intros p; [done|].
  cbn [fillRows]. rewrite fillRow_idem. f_equal. apply IH.
Qed.

Lemma fillAll_idem (rows : list row) :
  fillAll rn pt pa (fillAll rn pt pa rows) = fillAll rn pt pa rows.
Proof.
  destruct rows as [|r rows]; [done|].
  cbn [fillAll]. f_equal. apply fillRows_idem.
Qed.

Lemma fillRows_congr (p p' : row) (rows rows' : list row) :
  plainRow p = plainRow p' -> plainRow <$> rows = plainRow <$> rows' ->
  plainRow <$> fillRows rn pt pa p rows
  = plainRow <$> fillRows rn pt pa p' rows'.
Proof.
  revert p p' rows'. induction rows as [|c rows IH];
    intros p p' [|c' rows'] Hp Hrows; try discriminate Hrows; [done|].
  rewrite !fmap_cons in Hrows. injection Hrows as Hc Hrows.
  cbn [fillRows]. rewrite !fmap_cons. f_equal.
  - by apply fillRow_congr.
  - apply IH; [by apply fillRow_congr|done].
Qed.

Lemma fillAll_congr (rows rows' : list row) :
  plainRow <$> rows = plainRow <$> rows' ->
  plainRow <$> fillAll rn pt pa rows = plainRow <$> fillAll rn pt pa rows'.
Proof.
  destruct rows as [|r rows], rows' as [|r' rows']; intros H;
    try discriminate H; [done|].
  rewrite !fmap_cons in H. injection H as Hr Hrows.
  cbn [fillAll]. rewrite !fmap_cons. f_equal; [done|].
  by apply fillRows_congr.
Qed.

Lemma fillRows_commaFree (p : row) (rows : list row) :
  commaFree p -> Forall commaFree rows ->
  Forall commaFree (fillRows rn pt pa p rows).
Proof.
  intros Hp Hrows. revert p Hp.
  induction Hrows as [|c rows Hc _ IH]; intros p Hp; [constructor|].
  cbn [fillRows]. constructor; [by apply fillRow_commaFree|].
  apply IH. by apply fillRow_commaFree.
Qed.

Lemma fillAll_commaFree (rows : list row) :
  Forall commaFree rows -> Forall commaFree (fillAll rn pt pa rows).
Proof.
  intros H. destruct H as [|r rest Hr Hrest]; [constructor|]. cbn [fillAll].
  constructor; [done|]. by apply fillRows_commaFree.
Qed.

Lemma length_fillRows (p : row) (rows : list row) :
  length (fillRows rn pt pa p rows) = length rows.
Proof.
  revert p. induction rows as [|c rows IH]; intros p; [done|].
  cbn [fillRows length]. by rewrite IH.
Qed.

Lemma length_fillAll (rows : list row) :
  length (fillAll rn pt pa rows) = length rows.
Proof. destruct rows; [done|]. cbn [fillAll length]. by rewrite length_fillRows. Qed.

(** Row [k + 1] of the result is the step on the corrected row [k] and the
    given row [k + 1]. *)
Lemma fillRows_lookup (p : row) (rows : list row) k c :
  rows !! k = Some c ->
  exists p',
    (p :: fillRows rn pt pa p rows) !! k = Some p' /\
    fillRows rn pt pa p rows !! k = Some (fill p' c).
Proof.
  revert p k. induction rows as [|c0 rows IH]; intros p k Hk; [done|].
  destruct k as [|k].
  - injection Hk as ->. by exists p.
  - cbn [fillRows]. rewrite !lookup_cons. apply IH. exact Hk.
Qed.

Lemma fillAll_lookup_S (rows : list row) k c :
  rows !! S k = Some c ->
  exists p',
    fillAll rn pt pa rows !! k = Some p' /\
    fillAll rn pt pa rows !! S k = Some (fill p' c).
Proof.
  destruct rows as [|r rows]; [done|]. rewrite lookup_cons. intros Hk.
  cbn [fillAll]. rewrite lookup_cons. by apply fillRows_lookup.
Qed.

(** The loop of the source computes [fillRows]. *)
Lemma fillDownStep_fillRow (pre : list row) (p c : row) (rest : list row) :
  fillDownStep rn pt pa (length pre + 1) (pre ++ p :: c :: rest)
  = pre ++ p :: fill p c :: rest.
Proof.
  assert (forall x, <[length pre + 1 := x]> (pre ++ p :: c :: rest)
                    = pre ++ p :: x :: rest) as Hins.
  { intros x. rewrite insert_app_r_alt by lia.
    by replace (length pre + 1 - length pre) with 1 by lia. }
  unfold fillDownStep.
  replace (length pre + 1 - 1) with (length pre + 0) by lia.
  rewrite lookup_app_r, (lookup_app_r pre) by lia.
  replace (length pre + 0 - length pre) with 0 by lia.
  replace (length pre + 1 - length pre) with 1 by lia.
  cbn [lookup list_lookup]. unfold fillRow.
  repeat match goal with
         | |- context [if ?b then _ else _] => destruct b
         end; rewrite ?Hins; done.
Qed.

Lemma fillDownLoop_fillRows (rest pre : list row) (p : row) :
  fillDownLoop rn pt pa (length rest) (length pre + 1) (pre ++ p :: rest)
  = pre ++ p :: fillRows rn pt pa p rest.
Proof.
  revert pre p. induction rest as [|c rest IH]; intros pre p; [done|].
  cbn [fillDownLoop length fillRows]. rewrite fillDownStep_fillRow.
  replace (S (length pre + 1)) with (length (pre ++ [p]) + 1)
    by (rewrite length_app; simpl; lia).
  replace (pre ++ p :: fill p c :: rest)
    with ((pre ++ [p]) ++ fill p c :: rest) by (by rewrite <- app_assoc).
  rewrite IH. by rewrite <- app_assoc.
Qed.

End FillRowLemmas.

Section CorrectorProofs.

Import FillDownSamples.

Lemma applyFillDownLogic_found line0 rest rn pt pa :
  rest <> [] ->
  columns line0 = Some (rn, pt, pa) ->
  applyFillDownLogic (line0 :: rest)
  = line0 :: (join [COMMA] <$> fillAll rn pt pa (splitRow <$> rest)).
Proof.
  intros Hrest Hcols. destruct rest as [|line1 rest]; [done|].
  unfold applyFillDownLogic, columns in *. cbn [length Nat.leb].
  destruct (indexOf _ (js "Run Num")) as [a|]; [|done].
  destruct (indexOf _ (js "Pick Up Time")) as [b|]; [|done].
  destruct (indexOf _ (js "Pickup Address")) as [d|]; [|done].
  injection Hcols as -> -> ->. f_equal. f_equal.
  cbn [drop]. rewrite fmap_cons. cbn [length Nat.sub fillAll].
  rewrite Nat.sub_0_r.
  exact (fillDownLoop_fillRows rn pt pa (splitRow <$> rest) [] (splitRow line1)).
Qed.

Lemma applyFillDownLogic_not_found line0 rest :
  columns line0 = None -> applyFillDownLogic (line0 :: rest) = line0 :: rest.
Proof.
  intros Hcols. unfold applyFillDownLogic, columns in *.
  destruct (length (line0 :: rest) <=? 1); [done|].
  destruct (indexOf _ (js "Run Num")) as [a|]; [|done].
  destruct (indexOf _ (js "Pick Up Time")) as [b|]; [|done].
  destruct (indexOf _ (js "Pickup Address")) as [d|]; done.
Qed.

Lemma join_splitRow line : join [COMMA] (splitRow line) = line.
Proof. apply join_split. Qed.

Lemma fieldCount_join (r : row) :
  commaFree r -> fieldCount (join [COMMA] r) = length r.
Proof.
  intros [Hne Hall]. unfold fieldCount. rewrite split_join by done.
  apply length_fmap.
Qed.

Lemma Forall_commaFree_splitRow (rest : list jsstring) :
  Forall commaFree (splitRow <$> rest).
Proof. apply Forall_fmap, Forall_forall. intros line _. apply splitRow_commaFree. Qed.

(** C8: the corrector applied to its own output gives that output. *)
Theorem C8_idempotent (lines : list jsstring) :
  applyFillDownLogic (applyFillDownLogic lines) = applyFillDownLogic lines.
Proof.
  destruct lines as [|line0 rest]; [done|].
  destruct rest as [|line1 rest]; [done|].
  destruct (columns line0) as [[[rn pt] pa]|] eqn:Hcols.
  - rewrite (applyFillDownLogic_found line0 (line1 :: rest) rn pt pa)
      by done.
    set (R := fillAll rn pt pa (splitRow <$> line1 :: rest)).
    assert (Forall commaFree R) as HR
      by apply fillAll_commaFree, Forall_commaFree_splitRow.
    rewrite (applyFillDownLogic_found line0 _ rn pt pa); [|
      intros E; apply (f_equal length) in E;
      unfold R in E; rewrite length_fmap, length_fillAll in E; done | done].
    f_equal.
    assert (splitRow <$> (join [COMMA] <$> R) = plainRow <$> R) as ->.
    { rewrite <- list_fmap_compose. apply Forall_fmap_ext.
      eapply Forall_impl; [exact HR|]. intros r Hr. by apply splitRow_join. }
    assert (forall X : list row,
              join [COMMA] <$> X = join [COMMA] <$> (plainRow <$> X)) as Hjoin.
    { intros X. rewrite <- list_fmap_compose. apply list_fmap_ext.
      intros _ r _. symmetry. apply join_plainRow. }
    rewrite (Hjoin (fillAll _ _ _ _)).
    rewrite (fillAll_congr rn pt pa (plainRow <$> R) R).
    + rewrite <- Hjoin. unfold R. by rewrite fillAll_idem.
    + rewrite <- list_fmap_compose. apply list_fmap_ext.
      intros _ r _. apply plainRow_idemp.
  - by rewrite !applyFillDownLogic_not_found.
Qed.

(** C4, as the code has it: a data row with too few fields to hold the
    run number comes out as it went in, and so does the first data row; a
    row that comes out changed holds the run number and follows a row
    that, as it comes out, has enough fields for the run number, the pick
    up time and the pickup address. *)
Theorem C4_fill_down_guard (lines : list jsstring) (line0 : jsstring)
    (rn pt pa : nat) :
  lines !! 0 = Some line0 ->
  columns line0 = Some (rn, pt, pa) ->
  length (applyFillDownLogic lines) = length lines /\
  applyFillDownLogic lines !! 0 = Some line0 /\
  applyFillDownLogic lines !! 1 = lines !! 1 /\
  (forall i line,
     lines !! S i = Some line -> fieldCount line <= rn ->
     applyFillDownLogic lines !! S i = Some line) /\
  (forall i line line',
     lines !! S (S i) = Some line ->
     applyFillDownLogic lines !! S (S i) = Some line' ->
     line' <> line ->
     exists prev,
       applyFillDownLogic lines !! S i = Some prev /\
       Nat.max pt pa < fieldCount prev /\
       rn < fieldCount prev /\ rn < fieldCount line).
Proof.
  intros H0 Hcols. destruct lines as [|l0 rest]; [done|].
  injection H0 as ->. destruct rest as [|line1 rest].
  { repeat split; done. }
  rewrite (applyFillDownLogic_found line0 (line1 :: rest) rn pt pa) by done.
  set (R0 := splitRow <$> line1 :: rest).
  assert (Forall commaFree (fillAll rn pt pa R0)) as HR
    by apply fillAll_commaFree, Forall_commaFree_splitRow.
  assert (forall k line, (line1 :: rest) !! k = Some line ->
            R0 !! k = Some (splitRow line)) as HR0.
  { intros k line Hk. unfold R0. by rewrite list_lookup_fmap, Hk. }
  split; [|split; [|split; [|split]]].
  - cbn [length]. rewrite length_fmap, length_fillAll. unfold R0.
    by rewrite length_fmap.
  - done.
  - unfold R0. rewrite fmap_cons. cbn [fillAll]. rewrite fmap_cons.
    cbn [lookup list_lookup]. by rewrite join_splitRow.
  - intros i line Hi Hshort. rewrite lookup_cons in Hi |- *.
    rewrite list_lookup_fmap. destruct i as [|k].
    + injection Hi as ->. unfold R0. rewrite fmap_cons. cbn [fillAll].
      cbn [lookup list_lookup fmap option_fmap option_map].
      by rewrite join_splitRow.
    + destruct (fillAll_lookup_S rn pt pa R0 k _ (HR0 _ _ Hi))
        as (p' & _ & ->).
      cbn [fmap option_fmap option_map].
      rewrite fillRow_short; [by rewrite join_splitRow|].
      unfold splitRow. by rewrite length_fmap.
  - intros i line line' Hi Hout Hne.
    rewrite !lookup_cons in Hi, Hout |- *.
    rewrite list_lookup_fmap in Hout |- *.
    destruct (fillAll_lookup_S rn pt pa R0 i _ (HR0 _ _ Hi))
      as (p' & Hp' & Hc').
    rewrite Hc' in Hout. rewrite Hp'.
    cbn [fmap option_fmap option_map] in Hout |- *. injection Hout as <-.
    exists (join [COMMA] p'). split; [done|].
    assert (commaFree p') as Hgood
      by (eapply (proj1 (Forall_lookup _ _) HR); exact Hp').
    rewrite fieldCount_join by done.
    destruct (fillRow_cases rn pt pa p' (splitRow line))
      as [E|(Hp & Hc & _ & _ & _ & Hmax & _)].
    + rewrite E, join_splitRow in Hne. done.
    + unfold splitRow in Hc. rewrite length_fmap in Hc. done.
Qed.

Lemma C4_fill_down_guard_witness :
  applyFillDownLogic [sheetHeader; aliceRow; stubRow; bobRow] !! 2
    = Some stubRow /\
  exists prev,
    applyFillDownLogic [sheetHeader; aliceRow; bobRow] !! 1 = Some prev /\
    Nat.max 2 5 < fieldCount prev.
Proof.
  split.
  - destruct (C4_fill_down_guard [sheetHeader; aliceRow; stubRow; bobRow]
                sheetHeader 1 2 5 eq_refl ltac:(vm_compute; reflexivity))
      as (_ & _ & _ & Hshort & _).
    apply (Hshort 1 stubRow eq_refl). vm_compute. lia.
  - destruct (C4_fill_down_guard [sheetHeader; aliceRow; bobRow]
                sheetHeader 1 2 5 eq_refl ltac:(vm_compute; reflexivity))
      as (_ & _ & _ & _ & Hchanged).
    destruct (Hchanged 0 bobRow bobFilled eq_refl
                ltac:(vm_compute; reflexivity)
                ltac:(vm_compute; discriminate))
      as (prev & Hprev & Hmax & _).
    exists prev. by split.
Defined.

(** C4 as stated fails: a row that holds the run number but stops before
    the pickup address is given the two fields of the row before it, and
    grows. *)
Lemma C4_counterexample : ~ (forall lines, shortRowsUntouched lines).
Proof.
  intros H.
  specialize (H [sheetHeader; aliceRow; shortRow] sheetHeader 1 2 5 1 shortRow
                eq_refl ltac:(vm_compute; reflexivity) eq_refl
                ltac:(vm_compute; lia)).
  vm_compute in H. discriminate.
Qed.

(** What the pass does on the samples: the example of the specification,
    the short row that grows, and a second short row filled from the first
    one once that has grown. *)
Example fill_down_samples :
  applyFillDownLogic [sheetHeader; aliceRow; bobRow]
    = [sheetHeader; aliceRow; bobFilled] /\
  applyFillDownLogic [sheetHeader; aliceRow; shortRow]
    = [sheetHeader; aliceRow; shortRowGrown] /\
  applyFillDownLogic [sheetHeader; aliceRow; shortRow; shortRow]
    = [sheetHeader; aliceRow; shortRowGrown; shortRowGrown] /\
  applyFillDownLogic [js "Date,Customer"; js "d,A"; js "d,"]
    = [js "Date,Customer"; js "d,A"; js "d,"].
Proof. repeat split; vm_compute; reflexivity. Qed.

End CorrectorProofs.

(* ===================================================================== *)
(** * The theorems on sample runs *)
(* ===================================================================== *)

Section SampleRuns.

Import Samples MergeSamples PipelineSamples.

Lemma flakyService_transient (j : nat) :
  j < 2 -> failsTransient asciiLowerCase (flakyService j).
Proof.
  intros Hj. destruct j as [|[|j]]; [| |lia];
    (eexists; split; [reflexivity|vm_compute; reflexivity]).
Defined.

Lemma C2_retry_policy_witness :
  log_of (callGeminiWithRetry asciiLowerCase flakyService [0; 1])
    = [Request [0; 1] 0; Sleep 1000; Request [0; 1] 1; Sleep 2000;
       Request [0; 1] 2] /\
  result_of (callGeminiWithRetry asciiLowerCase flakyService [0; 1])
    = inr (js "A,1") /\
  log_of (callGeminiWithRetry asciiLowerCase rejectingService [0; 1])
    = [Request [0; 1] 0].
Proof.
  destruct (C2_retry_policy asciiLowerCase flakyService [0; 1])
    as (_ & _ & _ & _ & Hflaky & _).
  destruct (C2_retry_policy asciiLowerCase rejectingService [0; 1])
    as (_ & _ & _ & _ & _ & Hrejecting).
  destruct (Hflaky _ (flakyService_transient 0 ltac:(lia))
              (flakyService_transient 1 ltac:(lia)) eq_refl) as [Hlog Hres].
  split; [exact Hlog|]. split; [rewrite Hres; vm_compute; reflexivity|].
  apply Hrejecting. eexists. split; [reflexivity|vm_compute; reflexivity].
Defined.

Lemma downService_faults (k : nat) : faultsBefore asciiLowerCase downService k.
Proof.
  intros j _. eexists. split; [reflexivity|].
  left. exists [], (js " error"). vm_compute. reflexivity.
Defined.

Lemma fickleService_faults : faultsBefore asciiLowerCase fickleService 1.
Proof.
  intros j Hj. destruct j as [|j]; [|lia]. eexists. split; [reflexivity|].
  right. exists (js "http "), []. vm_compute. reflexivity.
Defined.

Lemma C3_error_kinds_witness :
  (result_of (callGeminiWithRetry asciiLowerCase downService [0])
     = inl ServiceBusyError /\
   requests (log_of (callGeminiWithRetry asciiLowerCase downService [0]))
     = [Request [0] 0; Request [0] 1; Request [0] 2]) /\
  (result_of (callGeminiWithRetry asciiLowerCase rejectingService [0])
     = inl ExtractionFailedError /\
   requests (log_of (callGeminiWithRetry asciiLowerCase rejectingService [0]))
     = [Request [0] 0]) /\
  (result_of (callGeminiWithRetry asciiLowerCase fickleService [0])
     = inl ExtractionFailedError /\
   requests (log_of (callGeminiWithRetry asciiLowerCase fickleService [0]))
     = [Request [0] 0; Request [0] 1]).
Proof.
  split; [|split].
  - apply (proj1 (C3_error_kinds asciiLowerCase downService [0])).
    apply downService_faults.
  - apply (proj1 (proj2 (C3_error_kinds asciiLowerCase rejectingService [0]))
             0 (ThrownError (js "API key not valid")));
      [unfold MAX_RETRIES; lia|intros j Hj; lia|reflexivity|].
    intros M%isTransient_mentions. vm_compute in M. discriminate.
  - apply (proj1 (proj2 (C3_error_kinds asciiLowerCase fickleService [0]))
             1 (ThrownOther (js "quota exceeded")));
      [unfold MAX_RETRIES; lia|apply fickleService_faults|reflexivity|].
    intros M%isTransient_mentions. vm_compute in M. discriminate.
Defined.

(** C7: a code fence with white space outside it is not removed. For the
    response [```csv\nA,1\n```\n] the client returns [A,1\n```], and for
    [ ```csv\nA,1\n```] it returns [```csv\nA,1]; with the fences that
    surround the text and the white space around them stripped, both
    responses are [A,1]. *)
Theorem C7_fence_kept_beside_white_space :
  result_of (callGeminiWithRetry asciiLowerCase newlineService [0])
    = inr (js "A,1" ++ [LF] ++ FENCE) /\
  result_of (callGeminiWithRetry asciiLowerCase indentingService [0])
    = inr (FENCE ++ js "csv" ++ [LF] ++ js "A,1") /\
  fenceStripped fencedThenNewline = js "A,1" /\
  fenceStripped blankThenFenced = js "A,1".
Proof. repeat split; vm_compute; reflexivity. Qed.

Lemma steadyService_returns (n j : nat) :
  exists text,
    result_of (extraction asciiLowerCase steadyService n j) = inr text.
Proof. eexists. reflexivity. Defined.

Lemma C6_chunking_witness :
  extractionCalls
    (log_of (convertPdfToCsv asciiLowerCase sampleKey 45 steadyService))
    = [seq 0 20; seq 20 20; seq 40 5] /\
  length (extractionCalls
    (log_of (convertPdfToCsv asciiLowerCase sampleKey 45 steadyService))) = 3.
Proof.
  destruct (C6_chunking asciiLowerCase sampleKey 45 steadyService)
    as (_ & _ & _ & Hall & H45).
  split.
  - rewrite Hall; [vm_compute; reflexivity|reflexivity|lia|].
    intros j _. apply steadyService_returns.
  - apply H45; [reflexivity|reflexivity|].
    intros j _. apply steadyService_returns.
Defined.

Lemma C9_empty_result_witness :
  result_of (convertPdfToCsv asciiLowerCase sampleKey 45 blankService)
    = inl EmptyResultError.
Proof.
  apply (proj2 (proj1 (C9_empty_result asciiLowerCase sampleKey 45
                         blankService))).
  split; [reflexivity|]. split; [discriminate|].
  exists []. split; [vm_compute; reflexivity|simpl; lia].
Defined.

Lemma lateService_returns (j : nat) :
  exists text,
    result_of (extraction asciiLowerCase lateService 45 j) = inr text.
Proof. destruct j; eexists; reflexivity. Defined.

Lemma C10_empty_chunks_skipped_witness :
  result_of (chunkLoop asciiLowerCase 45 lateService 45 0 [])
    = inr [trim fragmentB; trim fragmentB] /\
  merge [trim fragmentB; trim fragmentB] !! 0 = Some headerLine /\
  result_of (convertPdfToCsv asciiLowerCase sampleKey 45 blankService)
    = inl EmptyResultError.
Proof.
  pose proof (C10_empty_chunks_skipped asciiLowerCase sampleKey 45 lateService
                eq_refl ltac:(discriminate)
                (fun j _ => lateService_returns j)) as Hlate.
  cbv zeta in Hlate. destruct Hlate as (Hr & _ & _).
  pose proof (C10_empty_chunks_skipped asciiLowerCase sampleKey 45 blankService
                eq_refl ltac:(discriminate)
                ltac:(intros j _; eexists; reflexivity)) as Hblank.
  cbv zeta in Hblank. destruct Hblank as (_ & _ & Hempty).
  split; [rewrite Hr; vm_compute; reflexivity|].
  split; [vm_compute; reflexivity|].
  apply Hempty. intros t Ht. vm_compute in Ht.
  repeat (apply elem_of_cons in Ht as [Ht|Ht]; [exact Ht|]).
  by apply elem_of_nil in Ht.
Defined.

End SampleRuns.

(* ===================================================================== *)
(** * Further properties: [unquote] *)
(* ===================================================================== *)

Section UnquoteProofs.

(** Past index 0 only the second alternative of the regex, the one that
    ends with [$], can match: the quote the text ends with is cut. *)
Lemma replace_all_quote_later pos rest :
  replace_all_from false quoteRegex (S pos) 0 rest = stripQuoteEnd rest.
Proof.
  unfold stripQuoteEnd. revert pos.
  induction rest as [|c rest IH]; intros pos; [done|].
  cbn [replace_all_from]. unfold match_at, quoteRegex. cbn [rmatch].
  unfold chr_match. destruct (N.eqb_spec QUOTE c) as [<-|Hc].
  - destruct rest as [|d rest].
    + replace (S (S pos) - S pos) with 1 by lia. done.
    + rewrite IH. rewrite (stripSuffix_cons [QUOTE] QUOTE (d :: rest)) by done.
      by destruct (stripSuffix [QUOTE] (d :: rest)).
  - rewrite IH. rewrite (stripSuffix_cons [QUOTE] c rest).
    + by destruct (stripSuffix [QUOTE] rest).
    + intros [= ->]. done.
Qed.

Lemma replace_all_quote t :
  replace_all false quoteRegex t = stripQuoteEnd (stripQuoteStart t).
Proof.
  unfold replace_all, stripQuoteStart. destruct t as [|c rest]; [done|].
  cbn [replace_all_from]. unfold match_at, quoteRegex. cbn [rmatch stripPrefix].
  unfold chr_match. destruct (N.eqb_spec QUOTE c) as [<-|Hc].
  - cbn [Nat.sub default]. destruct rest; apply replace_all_quote_later.
  - cbn [default]. rewrite replace_all_quote_later. unfold stripQuoteEnd.
    rewrite (stripSuffix_cons [QUOTE] c rest).
    + by destruct (stripSuffix [QUOTE] rest).
    + intros [= ->]. done.
Qed.

(** X1: [unquote] trims the field and then removes at most one quote
    character from its start and at most one from its end; a missing
    field reads as the empty string. Quotes and white space inside the
    field stay. *)
Theorem unquote_one_quote_each_end (c : option jsstring) :
  unquote c = stripQuoteEnd (stripQuoteStart (trim (cell_text c))) /\
  (exists pre post,
     length pre <= 1 /\ length post <= 1 /\
     trim (cell_text c) = pre ++ unquote c ++ post).
Proof.
  assert (unquote c = stripQuoteEnd (stripQuoteStart (trim (cell_text c))))
    as E.
  { destruct c as [s|]; [apply replace_all_quote|done]. }
  split; [exact E|]. rewrite E. set (t := trim (cell_text c)).
  assert (exists pre, length pre <= 1 /\ t = pre ++ stripQuoteStart t)
    as (pre & Hpre & Et).
  { unfold stripQuoteStart. destruct (stripPrefix [QUOTE] t) as [u|] eqn:Eu.
    - apply stripPrefix_Some in Eu. by exists [QUOTE].
    - exists []. simpl. split; [lia|done]. }
  set (u := stripQuoteStart t) in *.
  assert (exists post, length post <= 1 /\ u = stripQuoteEnd u ++ post)
    as (post & Hpost & Eu).
  { unfold stripQuoteEnd. destruct (stripSuffix [QUOTE] u) as [v|] eqn:Ev.
    - apply stripSuffix_Some in Ev. by exists [QUOTE].
    - exists []. simpl. split; [lia|by rewrite app_nil_r]. }
  exists pre, post. split; [done|]. split; [done|].
  rewrite Et at 1. by rewrite Eu at 1.
Qed.

End UnquoteProofs.

(* ===================================================================== *)
(** * Further properties: the corrector, field by field *)
(* ===================================================================== *)

Section FieldLemmas.

Implicit Types (a r : row) (v c : option jsstring).

Lemma lookup_assign_eq a i v : assign a i v !! i = Some v.
Proof.
  revert a. induction i as [|i IH]; intros [|x a]; simpl; try done; apply IH.
Qed.

Lemma lookup_assign_ne a i j v x :
  i <> j -> a !! j = Some x -> assign a i v !! j = Some x.
Proof.
  revert a j. induction i as [|i IH]; intros [|x' a] [|j] Hne Hj;
    simpl in *; try done.
  apply IH; [lia|done].
Qed.

Lemma at_index_splitRow line j : at_index (splitRow line) j = field line j.
Proof.
  unfold at_index, splitRow, field. rewrite list_lookup_fmap.
  by destruct (split COMMA line !! j).
Qed.

Lemma field_join r j :
  commaFree r -> field (join [COMMA] r) j = cell_text <$> (r !! j).
Proof.
  intros [Hne Hall]. unfold field. rewrite split_join by done.
  apply list_lookup_fmap.
Qed.

Lemma unquote_field_join r j :
  commaFree r -> unquote (field (join [COMMA] r) j) = unquote (at_index r j).
Proof.
  intros Hr. rewrite field_join by done. unfold at_index.
  destruct (r !! j) as [c|]; simpl; [apply unquote_cell|done].
Qed.

Lemma field_lt line j : j < fieldCount line -> exists f, field line j = Some f.
Proof. intros H. by apply lookup_lt_is_Some_2. Qed.

Lemma indexOf_None (a : list jsstring) x : x ∉ a -> indexOf a x = None.
Proof.
  induction a as [|y a IH]; intros Hx; [done|]. simpl. unfold str_eqb.
  rewrite bool_decide_eq_false_2.
  - rewrite IH; [done|]. intros ?. apply Hx. by right.
  - intros ->. apply Hx. left.
Qed.

End FieldLemmas.

Section FieldProofs.

Import FillDownSamples FillDownViews.

Variables (lines : list jsstring) (line0 : jsstring) (rn pt pa : nat).
Hypothesis Hheader : lines !! 0 = Some line0.
Hypothesis Hcolumns : columns line0 = Some (rn, pt, pa).

#[local] Abbreviation out := (applyFillDownLogic lines).

(** Data row [i] of the output is the join of a row of fields, the split
    input row for the first data row, and for every other one the step on
    the row that the output has before it. *)
Lemma corrected_row i line :
  lines !! S i = Some line ->
  exists r',
    commaFree r' /\ out !! S i = Some (join [COMMA] r') /\
    match i with
    | 0 => r' = splitRow line
    | S k =>
        exists p',
          commaFree p' /\ out !! S k = Some (join [COMMA] p') /\
          r' = fillRow rn pt pa p' (splitRow line)
    end.
Proof using Hheader Hcolumns.
  intros Hi. destruct lines as [|l0 rest]; [done|].
  injection Hheader as ->. destruct rest as [|line1 rest]; [done|].
  rewrite (applyFillDownLogic_found line0 (line1 :: rest) rn pt pa) by done.
  set (R0 := splitRow <$> line1 :: rest).
  assert (Forall commaFree (fillAll rn pt pa R0)) as HR
    by apply fillAll_commaFree, Forall_commaFree_splitRow.
  assert (forall k l, (line1 :: rest) !! k = Some l ->
            R0 !! k = Some (splitRow l)) as HR0.
  { intros k l Hk. unfold R0. by rewrite list_lookup_fmap, Hk. }
  rewrite lookup_cons in Hi. destruct i as [|k].
  - injection Hi as ->. exists (splitRow line).
    split; [apply splitRow_commaFree|]. split; [|done].
    unfold R0. by rewrite fmap_cons.
  - destruct (fillAll_lookup_S rn pt pa R0 k _ (HR0 _ _ Hi))
      as (p' & Hp' & Hc').
    assert (commaFree p') as Hgood
      by (eapply (proj1 (Forall_lookup _ _) HR); exact Hp').
    exists (fillRow rn pt pa p' (splitRow line)).
    split; [apply fillRow_commaFree; [done|apply splitRow_commaFree]|].
    rewrite !lookup_cons, !list_lookup_fmap, Hc', Hp'.
    split; [done|]. by exists p'.
Qed.

(** X2: the pass writes to the pick up time and pickup address only:
    every other field of a data row comes out as it went in, and no row
    loses a field. *)
Theorem fill_down_other_fields_kept i line line' :
  lines !! S i = Some line ->
  out !! S i = Some line' ->
  fieldCount line <= fieldCount line' /\
  (forall j f, j <> pt -> j <> pa ->
     field line j = Some f -> field line' j = Some f).
Proof using Hheader Hcolumns.
  intros Hi Hout.
  destruct (corrected_row i line Hi) as (r' & Hgood & Hr' & Hshape).
  rewrite Hr' in Hout. injection Hout as <-.
  assert (r' = splitRow line \/
          exists v1 v2, r' = assign (assign (splitRow line) pt v1) pa v2)
    as [->|(v1 & v2 & ->)].
  { destruct i as [|k]; [by left|].
    destruct Hshape as (p' & _ & _ & ->).
    destruct (fillRow_cases rn pt pa p' (splitRow line))
      as [->|(_ & _ & _ & _ & _ & _ & ->)]; [by left|right; eauto]. }
  - by rewrite join_splitRow.
  - rewrite fieldCount_join by done. rewrite !length_assign.
    unfold fieldCount at 1. unfold splitRow. rewrite length_fmap.
    split; [lia|]. intros j f Hpt Hpa Hf.
    rewrite field_join by done.
    rewrite (lookup_assign_ne _ pa j _ (Some f)); [done|done|].
    apply lookup_assign_ne; [done|].
    rewrite list_lookup_fmap. unfold field in Hf. by rewrite Hf.
Qed.

(** X3: a data row comes out changed only if its unquoted run number is
    not empty and equals that of the row before it as that row comes out,
    and its unquoted pick up time or pickup address is empty. So a row
    with both fields filled in, or with another run number, is never
    touched. *)
Theorem fill_down_changes_only_blank_rows i line line' :
  lines !! S (S i) = Some line ->
  out !! S (S i) = Some line' ->
  line' <> line ->
  exists prev,
    out !! S i = Some prev /\
    unquote (field line rn) <> [] /\
    unquote (field line rn) = unquote (field prev rn) /\
    (unquote (field line pt) = [] \/ unquote (field line pa) = []).
Proof using Hheader Hcolumns.
  intros Hi Hout Hne.
  destruct (corrected_row (S i) line Hi)
    as (r' & Hgood & Hr' & p' & Hp & Hprev & ->).
  rewrite Hr' in Hout. injection Hout as <-.
  exists (join [COMMA] p'). split; [done|].
  destruct (fillRow_cases rn pt pa p' (splitRow line))
    as [E|(_ & _ & Ht & Heq & Hblank & _ & _)].
  { rewrite E, join_splitRow in Hne. done. }
  rewrite !at_index_splitRow in *. rewrite unquote_field_join by done.
  split; [|done]. intros E. by rewrite E in Ht.
Qed.

Lemma fillRow_fires (p c : row) :
  rn < length p -> rn < length c ->
  unquote (at_index c rn) <> [] ->
  unquote (at_index c rn) = unquote (at_index p rn) ->
  unquote (at_index c pt) = [] \/ unquote (at_index c pa) = [] ->
  Nat.max pt pa < length p ->
  fillRow rn pt pa p c
  = assign (assign c pt (at_index p pt)) pa (at_index p pa).
Proof.
  intros Hp Hc Hrun Heq Hblank Hmax. unfold fillRow.
  rewrite (proj2 (Nat.leb_gt _ _) Hp), (proj2 (Nat.leb_gt _ _) Hc).
  cbn [orb]. rewrite <- Heq. unfold str_eqb.
  rewrite bool_decide_eq_true_2 by done.
  destruct (unquote (at_index c rn)) as [|x t] eqn:E; [done|].
  cbn [truthy andb]. rewrite (proj2 (Nat.ltb_lt _ _) Hmax).
  by destruct Hblank as [-> | ->]; cbn [truthy negb orb];
    rewrite ?orb_true_r.
Qed.

(** X4: when a data row holds the run number, shares it, not empty, with
    the row before it as that row comes out, that row holds both pickup
    fields, and the row's own pick up time or pickup address is empty when
    unquoted, then both of its fields are overwritten with the raw fields
    of the row before it; the one that was filled in is overwritten too. *)
Theorem fill_down_copies_both_fields i line prev :
  lines !! S (S i) = Some line ->
  out !! S i = Some prev ->
  rn < fieldCount line -> rn < fieldCount prev ->
  Nat.max pt pa < fieldCount prev ->
  unquote (field line rn) <> [] ->
  unquote (field line rn) = unquote (field prev rn) ->
  unquote (field line pt) = [] \/ unquote (field line pa) = [] ->
  exists line',
    out !! S (S i) = Some line' /\
    field line' pt = field prev pt /\
    field line' pa = field prev pa /\
    fieldCount line' = Nat.max (fieldCount line) (S (Nat.max pt pa)).
Proof using Hheader Hcolumns.
  intros Hi Hprev Hc Hp Hmax Hrun Heq Hblank.
  destruct (corrected_row (S i) line Hi)
    as (r' & Hgood & Hr' & p' & Hgp & Hprev' & ->).
  rewrite Hprev in Hprev'. injection Hprev' as ->.
  rewrite fieldCount_join in Hp, Hmax by done.
  rewrite unquote_field_join in Heq by done.
  rewrite <- (at_index_splitRow line rn) in Hrun, Heq.
  rewrite <- (at_index_splitRow line pt), <- (at_index_splitRow line pa)
    in Hblank.
  assert (length (splitRow line) = fieldCount line) as Hlen
    by (unfold splitRow; apply length_fmap).
  assert (fillRow rn pt pa p' (splitRow line)
          = assign (assign (splitRow line) pt (at_index p' pt)) pa
              (at_index p' pa)) as E
    by (apply fillRow_fires; rewrite ?Hlen; (done || lia)).
  rewrite E in Hr', Hgood.
  eexists. split; [exact Hr'|].
  rewrite !field_join, fieldCount_join by done.
  rewrite !length_assign, Hlen.
  assert (p' !! pt = Some (at_index p' pt) /\ p' !! pa = Some (at_index p' pa))
    as [Ept Epa].
  { unfold at_index.
    destruct (lookup_lt_is_Some_2 p' pt) as [x ->]; [lia|].
    destruct (lookup_lt_is_Some_2 p' pa) as [y ->]; [lia|]. done. }
  rewrite Ept, Epa, lookup_assign_eq. split; [|split; [done|lia]].
  destruct (Nat.eq_dec pa pt) as [->|Hne].
  - by rewrite lookup_assign_eq.
  - by rewrite (lookup_assign_ne _ pa pt _ (at_index p' pt));
      [|done|apply lookup_assign_eq].
Qed.

End FieldProofs.

Section CorrectorShape.

Import FillDownSamples FillDownViews.

Lemma fill_down_other_fields_kept_witness :
  field bobFilled 3 = Some (js "Bob") /\
  field bobFilled 6 = Some (js "789 Elm").
Proof.
  destruct (fill_down_other_fields_kept [sheetHeader; aliceRow; bobRow]
              sheetHeader 1 2 5 eq_refl ltac:(vm_compute; reflexivity)
              1 bobRow bobFilled eq_refl ltac:(vm_compute; reflexivity))
    as [_ H].
  split; apply H; try lia; vm_compute; reflexivity.
Defined.

Lemma fill_down_changes_only_blank_rows_witness :
  exists prev,
    applyFillDownLogic [sheetHeader; aliceRow; bobRow] !! 1 = Some prev /\
    unquote (field bobRow 1) <> [] /\
    unquote (field bobRow 1) = unquote (field prev 1) /\
    (unquote (field bobRow 2) = [] \/ unquote (field bobRow 5) = []).
Proof.
  apply (fill_down_changes_only_blank_rows [sheetHeader; aliceRow; bobRow]
           sheetHeader 1 2 5 eq_refl ltac:(vm_compute; reflexivity)
           0 bobRow bobFilled eq_refl ltac:(vm_compute; reflexivity)).
  vm_compute. discriminate.
Defined.

Lemma fill_down_copies_both_fields_witness :
  exists line',
    applyFillDownLogic [sheetHeader; aliceRow; carolRow] !! 2 = Some line' /\
    field line' 2 = field aliceRow 2 /\
    field line' 5 = field aliceRow 5 /\
    fieldCount line' = Nat.max (fieldCount carolRow) (S (Nat.max 2 5)).
Proof.
  apply (fill_down_copies_both_fields [sheetHeader; aliceRow; carolRow]
           sheetHeader 1 2 5 eq_refl ltac:(vm_compute; reflexivity)
           0 carolRow aliceRow eq_refl ltac:(vm_compute; reflexivity)).
  - vm_compute. lia.
  - vm_compute. lia.
  - vm_compute. lia.
  - vm_compute. discriminate.
  - vm_compute. reflexivity.
  - left. vm_compute. reflexivity.
Defined.

(** The sample behind the witness: Carol's own pickup address is
    replaced by Alice's along with the blank pick up time. *)
Example fill_down_overwrites_filled_address :
  applyFillDownLogic [sheetHeader; aliceRow; carolRow]
  = [sheetHeader; aliceRow; carolFilled].
Proof. vm_compute. reflexivity. Qed.

(** X5: the pass needs the three column names in the header, spelled
    exactly as the unquoted header fields: when one of them is missing,
    the lines come back as they are. *)
Theorem fill_down_needs_three_columns (lines : list jsstring)
    (line0 : jsstring) :
  lines !! 0 = Some line0 ->
  js "Run Num" ∉ headerNames line0 \/
  js "Pick Up Time" ∉ headerNames line0 \/
  js "Pickup Address" ∉ headerNames line0 ->
  applyFillDownLogic lines = lines.
Proof.
  intros H0 Hmissing. destruct lines as [|l0 rest]; [done|].
  injection H0 as ->. apply applyFillDownLogic_not_found.
  unfold columns. fold (headerNames line0).
  destruct Hmissing as [H|[H|H]]; rewrite (indexOf_None _ _ H);
    repeat match goal with
           | |- context [match ?o with Some _ => _ | None => _ end] =>
               destruct o
           end; done.
Qed.

Lemma fill_down_needs_three_columns_witness :
  applyFillDownLogic lowerCaseSheet = lowerCaseSheet.
Proof.
  apply (fill_down_needs_three_columns lowerCaseSheet
           (js "Date,run num,Pick Up Time,Pickup Address") eq_refl).
  left. vm_compute. intros H.
  repeat (apply elem_of_cons in H as [H|H]; [discriminate H|]).
  by apply elem_of_nil in H.
Defined.

(** X6: the pass never adds or removes a line, and it never changes the
    header line or the first data line, whatever the lines are. *)
Theorem fill_down_shape (lines : list jsstring) :
  length (applyFillDownLogic lines) = length lines /\
  applyFillDownLogic lines !! 0 = lines !! 0 /\
  applyFillDownLogic lines !! 1 = lines !! 1.
Proof.
  destruct lines as [|line0 rest]; [done|].
  destruct rest as [|line1 rest]; [done|].
  destruct (columns line0) as [[[rn pt] pa]|] eqn:Hcols.
  - rewrite (applyFillDownLogic_found line0 (line1 :: rest) rn pt pa) by done.
    rewrite fmap_cons. cbn [fillAll]. rewrite fmap_cons, join_splitRow.
    split; [|done]. cbn [length].
    by rewrite length_fmap, length_fillRows, length_fmap.
  - by rewrite applyFillDownLogic_not_found.
Qed.

End CorrectorShape.

(* ===================================================================== *)
(** * Further properties: the client's effort and its text *)
(* ===================================================================== *)

(** Goes through every way the three attempts of a call can go. *)
Ltac explore_client ai :=
  unfold callGeminiWithRetry, MAX_RETRIES;
  repeat match goal with
         | _ => progress
             cbn [retryLoop bind emit ret throw default id Nat.sub
                  Nat.ltb Nat.leb log_of result_of fst snd app]
         | |- context [giveUp] => unfold giveUp
         | |- context [MAX_RETRIES] => unfold MAX_RETRIES
         | |- context [match ai ?k with _ => _ end] => destruct (ai k)
         | |- context [if isTransient ?f ?m then _ else _] =>
             destruct (isTransient f m)
         end.

Section ClientEffort.

Variable toLowerCase : jsstring -> jsstring.
Variable ai : nat -> attempt_result.
Variable pages : list nat.

#[local] Abbreviation run := (callGeminiWithRetry toLowerCase ai pages).

Lemma trim_idemp s : trim (trim s) = trim s.
Proof.
  unfold trim, trimEnd, trimStart.
  set (u := dropWhile is_ws s).
  destruct (dropWhile_decompose is_ws (reverse u)) as (b & Eb & Hb).
  set (v := dropWhile is_ws (reverse u)) in *.
  assert (dropWhile is_ws (reverse v) = reverse v) as ->.
  { destruct v as [|x v'] eqn:Ev; [done|].
    assert (u = reverse (x :: v') ++ reverse b) as Eu.
    { apply (f_equal reverse) in Eb.
      by rewrite reverse_involutive, reverse_app in Eb. }
    destruct (reverse (x :: v')) as [|y w] eqn:Ew.
    { apply (f_equal length) in Ew. rewrite length_reverse in Ew. done. }
    simpl. replace (is_ws y) with false; [done|]. symmetry.
    apply (dropWhile_head is_ws s y (w ++ reverse b)). fold u. by rewrite Eu. }
  rewrite reverse_involutive.
  assert (dropWhile is_ws v = v) as ->; [|done].
  destruct v as [|x v'] eqn:Ev; [done|]. simpl.
  by rewrite (dropWhile_head is_ws (reverse u) x v').
Qed.

Lemma client_effort :
  length (requests (log_of run)) <= MAX_RETRIES /\
  (sleepTotal (log_of run) <= 3000)%N /\
  progressOf (log_of run) = [].
Proof.
  explore_client ai;
    (split; [cbn [requests List.filter is_request length];
             unfold MAX_RETRIES; lia|]);
    (split; [apply N.leb_le; vm_compute; reflexivity|reflexivity]).
Qed.

(** X7: a call makes at least one and at most three requests, sleeps at
    most 3000 ms in all, ends with a request and not with a sleep, and
    emits no progress message. *)
Theorem client_effort_bounded :
  1 <= length (requests (log_of run)) <= MAX_RETRIES /\
  (sleepTotal (log_of run) <= 3000)%N /\
  (exists before k, log_of run = before ++ [Request pages k]) /\
  progressOf (log_of run) = [].
Proof.
  explore_client ai;
    (split; [cbn [requests List.filter is_request length];
             unfold MAX_RETRIES; lia|]);
    (split; [apply N.leb_le; vm_compute; reflexivity|]);
    (split; [|reflexivity]);
    first [ by exists [], 0
          | by eexists [_; _], 1
          | by eexists [_; _; _; _], 2
          | by eexists [_], 1
          | by eexists [_; _], 2
          | by eexists [_; _; _], 2 ].
Qed.

(** X8: the text a call returns has no white space at its start or end,
    and a response without text gives the empty text. *)
Theorem client_text_trimmed (text : jsstring) :
  result_of run = inr text ->
  trim text = text /\
  (forall c rest, text = c :: rest -> is_ws c = false) /\
  (forall k, (forall j, j < k -> failsTransient toLowerCase (ai j)) ->
     k < MAX_RETRIES -> ai k = Responded None -> text = []).
Proof.
  intros H.
  assert (exists raw, text = trim raw) as [raw ->].
  { revert H. explore_client ai; intros [= <-]; unfold stripFences; eauto. }
  split; [apply trim_idemp|]. split; [intros c rest; apply trim_head|].
  intros k Hprev Hk Hnone. revert H.
  destruct k as [|[|[|k]]]; [| | |unfold MAX_RETRIES in Hk; lia].
  - unfold callGeminiWithRetry, MAX_RETRIES. cbn [retryLoop bind emit].
    rewrite Hnone. cbn. intros [= <-]. done.
  - destruct (Hprev 0 ltac:(lia)) as (e0 & E0 & T0).
    unfold callGeminiWithRetry, MAX_RETRIES. cbn [retryLoop bind emit].
    rewrite E0, T0. cbn [retryLoop bind emit Nat.ltb Nat.leb Nat.sub].
    unfold MAX_RETRIES. cbn [retryLoop bind emit Nat.ltb Nat.leb Nat.sub].
    rewrite Hnone. cbn. intros [= <-]. done.
  - destruct (Hprev 0 ltac:(lia)) as (e0 & E0 & T0).
    destruct (Hprev 1 ltac:(lia)) as (e1 & E1 & T1).
    unfold callGeminiWithRetry, MAX_RETRIES. cbn [retryLoop bind emit].
    rewrite E0, T0. cbn [retryLoop bind emit Nat.ltb Nat.leb Nat.sub].
    unfold MAX_RETRIES. cbn [retryLoop bind emit Nat.ltb Nat.leb Nat.sub].
    rewrite E1, T1. cbn [retryLoop bind emit Nat.ltb Nat.leb Nat.sub].
    unfold MAX_RETRIES. cbn [retryLoop bind emit Nat.ltb Nat.leb Nat.sub].
    rewrite Hnone. cbn. intros [= <-]. done.
Qed.

End ClientEffort.

(* ===================================================================== *)
(** * Further properties: the pipeline's errors, effort and progress *)
(* ===================================================================== *)

Section PipelineEffort.

Variable toLowerCase : jsstring -> jsstring.
Variable apiKey : option jsstring.
Variable pageCount : nat.
Variable service : nat -> nat -> attempt_result.

#[local] Abbreviation loop := (chunkLoop toLowerCase pageCount service).
#[local] Abbreviation convert :=
  (convertPdfToCsv toLowerCase apiKey pageCount service).
#[local] Abbreviation extract := (extraction toLowerCase service pageCount).
#[local] Abbreviation logOfChunk := (chunkLog toLowerCase service pageCount).

Lemma pipelineErrors_NoDup : NoDup pipelineErrors.
Proof. refine (bool_decide_unpack _ _). vm_compute. exact I. Qed.

Lemma requests_app l1 l2 : requests (l1 ++ l2) = requests l1 ++ requests l2.
Proof. apply List.filter_app. Qed.

Lemma sleepTotal_app l1 l2 :
  sleepTotal (l1 ++ l2) = (sleepTotal l1 + sleepTotal l2)%N.
Proof.
  induction l1 as [|e l1 IH]; [done|].
  cbn [app sleepTotal foldr]. fold (sleepTotal (l1 ++ l2)).
  fold (sleepTotal l1). rewrite IH. destruct e; lia.
Qed.

Lemma progressOf_app l1 l2 :
  progressOf (l1 ++ l2) = progressOf l1 ++ progressOf l2.
Proof. apply omap_app. Qed.

(** One more turn of the loop, by its log and its result. *)
Lemma chunkLoop_turn fuel j acc :
  j * CHUNK_SIZE < pageCount ->
  log_of (loop (S fuel) (j * CHUNK_SIZE) acc) =
    logOfChunk j ++
    match result_of (extract j) with
    | inl _ => []
    | inr chunkCsv =>
        log_of (loop fuel (S j * CHUNK_SIZE)
                  (if truthy chunkCsv then acc ++ [chunkCsv] else acc))
    end /\
  result_of (loop (S fuel) (j * CHUNK_SIZE) acc) =
    match result_of (extract j) with
    | inl err => inl err
    | inr chunkCsv =>
        result_of (loop fuel (S j * CHUNK_SIZE)
                     (if truthy chunkCsv then acc ++ [chunkCsv] else acc))
    end.
Proof.
  intros Hlt. rewrite chunkLoop_step by done.
  rewrite !log_of_bind, !result_of_bind. cbn [emit log_of result_of fst snd].
  unfold chunkLog, processingMessage. split; [|done].
  by destruct (result_of (extract j)).
Qed.

(** The loop's requests and sleeps stay within three requests and 3000 ms
    for each chunk still to come. *)
Lemma chunkLoop_effort m :
  forall j fuel acc,
    j + m = chunkCount pageCount ->
    pageCount - j * CHUNK_SIZE <= fuel ->
    length (requests (log_of (loop fuel (j * CHUNK_SIZE) acc)))
      <= MAX_RETRIES * m /\
    (sleepTotal (log_of (loop fuel (j * CHUNK_SIZE) acc))
       <= 3000 * N.of_nat m)%N.
Proof.
  induction m as [|m IH]; intros j fuel acc Hj Hfuel.
  - pose proof (chunkCount_spec pageCount j).
    rewrite chunkLoop_done by lia. cbn [ret log_of fst].
    change (length (requests [])) with 0. change (sleepTotal []) with 0%N.
    lia.
  - assert (j * CHUNK_SIZE < pageCount) as Hlt by (apply chunkCount_spec; lia).
    destruct fuel as [|fuel]; [lia|].
    destruct (chunkLoop_turn fuel j acc Hlt) as [-> _].
    rewrite requests_app, sleepTotal_app, length_app.
    unfold chunkLog. cbn [requests List.filter is_request sleepTotal foldr].
    fold (requests (log_of (extract j))). fold (sleepTotal (log_of (extract j))).
    destruct (client_effort toLowerCase (service (j * CHUNK_SIZE))
                (chunkPages pageCount j)) as (Hr & Hs & _).
    fold (extract j) in Hr, Hs.
    destruct (result_of (extract j)) as [err|chunkCsv].
    + change (length (requests [])) with 0. change (sleepTotal []) with 0%N.
      unfold MAX_RETRIES in *. lia.
    + destruct (IH (S j) fuel
                  (if truthy chunkCsv then acc ++ [chunkCsv] else acc))
        as [Hr' Hs']; [lia|unfold CHUNK_SIZE in *; lia|].
      unfold MAX_RETRIES in *. lia.
Qed.

Lemma chunkLoop_log_returned m :
  forall j fuel acc,
    j + m = chunkCount pageCount ->
    pageCount - j * CHUNK_SIZE <= fuel ->
    (forall i, j <= i -> i < j + m ->
       exists text, result_of (extract i) = inr text) ->
    log_of (loop fuel (j * CHUNK_SIZE) acc) = concat (logOfChunk <$> seq j m).
Proof.
  induction m as [|m IH]; intros j fuel acc Hj Hfuel Hok.
  - pose proof (chunkCount_spec pageCount j). by rewrite chunkLoop_done by lia.
  - assert (j * CHUNK_SIZE < pageCount) as Hlt by (apply chunkCount_spec; lia).
    destruct fuel as [|fuel]; [lia|].
    destruct (chunkLoop_turn fuel j acc Hlt) as [-> _].
    destruct (Hok j) as [chunkCsv ->]; [lia|lia|].
    cbn [seq fmap list_fmap concat]. f_equal.
    apply IH; [lia|unfold CHUNK_SIZE in *; lia|].
    intros i ? ?. apply Hok; lia.
Qed.

Lemma chunkLoop_first_failure m :
  forall j fuel acc f message,
    j + m = chunkCount pageCount ->
    pageCount - j * CHUNK_SIZE <= fuel ->
    j <= f -> f < j + m ->
    (forall i, j <= i -> i < f ->
       exists text, result_of (extract i) = inr text) ->
    result_of (extract f) = inl message ->
    log_of (loop fuel (j * CHUNK_SIZE) acc)
      = concat (logOfChunk <$> seq j (S f - j)) /\
    result_of (loop fuel (j * CHUNK_SIZE) acc) = inl message.
Proof.
  induction m as [|m IH]; intros j fuel acc f message Hj Hfuel Hjf Hf Hok Hfail;
    [lia|].
  assert (j * CHUNK_SIZE < pageCount) as Hlt by (apply chunkCount_spec; lia).
  destruct fuel as [|fuel]; [lia|].
  destruct (chunkLoop_turn fuel j acc Hlt) as [-> ->].
  destruct (Nat.eq_dec j f) as [->|Hne].
  - rewrite Hfail. replace (S f - f) with 1 by lia.
    cbn [seq fmap list_fmap concat]. done.
  - destruct (Hok j) as [chunkCsv ->]; [lia|lia|].
    replace (S f - j) with (S (S f - S j)) by lia.
    cbn [seq fmap list_fmap concat].
    destruct (IH (S j) fuel
                (if truthy chunkCsv then acc ++ [chunkCsv] else acc)
                f message) as [-> ->];
      [lia|unfold CHUNK_SIZE in *; lia|lia|lia| |done|done].
    intros i ? ?. apply Hok; lia.
Qed.

Lemma progressOf_chunkLogs j m :
  progressOf (concat (logOfChunk <$> seq j m))
  = processingMessage pageCount <$> seq j m.
Proof.
  revert j. induction m as [|m IH]; intros j; [done|].
  cbn [seq fmap list_fmap concat]. rewrite progressOf_app, IH.
  unfold chunkLog. change (?e :: ?l) with ([e] ++ l) at 1.
  rewrite progressOf_app.
  destruct (client_effort toLowerCase (service (j * CHUNK_SIZE))
              (chunkPages pageCount j)) as (_ & _ & Hp).
  unfold extraction. rewrite Hp. done.
Qed.

Lemma extractionCalls_chunkLogs j m :
  extractionCalls (concat (logOfChunk <$> seq j m))
  = chunkPages pageCount <$> seq j m.
Proof.
  revert j. induction m as [|m IH]; intros j; [done|].
  cbn [seq fmap list_fmap concat]. rewrite extractionCalls_app, IH.
  unfold chunkLog. change (?e :: ?l) with ([e] ++ l) at 1.
  rewrite extractionCalls_app. unfold extraction.
  rewrite extractionCalls_client. done.
Qed.

(** X9: the API key is checked before anything else is done. The
    pipeline throws the configuration error exactly when the key is
    missing or empty, whatever the document and the service are, and has
    then logged nothing, neither a progress message nor a request. With a
    key it throws the invalid document error exactly when the document has
    no page, after the loading message alone. The five messages of the
    errors the service creates differ from one another. *)
Theorem pipeline_checks_key_first :
  (result_of convert = inl ConfigurationError <->
   truthy (default [] apiKey) = false) /\
  (truthy (default [] apiKey) = false -> log_of convert = []) /\
  (result_of convert = inl InvalidDocumentError <->
   truthy (default [] apiKey) = true /\ pageCount = 0) /\
  (truthy (default [] apiKey) = true -> pageCount = 0 ->
   log_of convert = [Progress Loading]) /\
  NoDup pipelineErrors.
Proof.
  assert (forall message,
            result_of convert = inl message ->
            (truthy (default [] apiKey) = false /\
             message = ConfigurationError) \/
            (truthy (default [] apiKey) = true /\ pageCount = 0 /\
             message = InvalidDocumentError) \/
            (truthy (default [] apiKey) = true /\ pageCount <> 0 /\
             (message = ServiceBusyError \/ message = ExtractionFailedError
              \/ message = EmptyResultError))) as Hcases.
  { intros message H. destruct (truthy (default [] apiKey)) eqn:Hkey.
    2:{ unfold convertPdfToCsv in H. rewrite Hkey in H.
        injection H as <-. by left. }
    destruct (Nat.eq_dec pageCount 0) as [Hz|Hn].
    { unfold convertPdfToCsv in H. rewrite Hkey, Hz in H.
      injection H as <-. right. left. done. }
    right. right. split; [done|]. split; [done|].
    destruct (convert_running toLowerCase apiKey pageCount service Hkey Hn)
      as [_ Hr].
    rewrite Hr in H.
    destruct (result_of (loop pageCount 0 [])) as [err|fragments] eqn:El.
    - injection H as ->.
      destruct (chunkLoop_general toLowerCase pageCount service
                  (chunkCount pageCount) 0 pageCount [])
        as [_ He]; [done|simpl; lia|].
      destruct (He _ El) as [E|E]; auto.
    - destruct (length (merge fragments) <? 2); [|done].
      injection H as <-. auto. }
  assert (ConfigurationError <> InvalidDocumentError /\
          ConfigurationError <> ServiceBusyError /\
          ConfigurationError <> ExtractionFailedError /\
          ConfigurationError <> EmptyResultError /\
          InvalidDocumentError <> ServiceBusyError /\
          InvalidDocumentError <> ExtractionFailedError /\
          InvalidDocumentError <> EmptyResultError)
    as (H1 & H2 & H3 & H4 & H5 & H6 & H7)
    by (repeat split; vm_compute; discriminate).
  split; [|split; [|split; [|split; [|apply pipelineErrors_NoDup]]]].
  - split.
    + intros H.
      destruct (Hcases _ H) as [[E _]|[(_ & _ & E)|(_ & _ & [E|[E|E]])]];
        [done| | | |]; by symmetry in E.
    + intros Hkey. unfold convertPdfToCsv. by rewrite Hkey.
  - intros Hkey. unfold convertPdfToCsv. by rewrite Hkey.
  - split.
    + intros H.
      destruct (Hcases _ H) as [[_ E]|[(? & ? & _)|(_ & _ & [E|[E|E]])]];
        [by destruct H1|done| | |]; done.
    + intros [Hkey ->]. unfold convertPdfToCsv. by rewrite Hkey.
  - intros Hkey ->. unfold convertPdfToCsv. by rewrite Hkey.
Qed.

(** X10: a conversion makes at most three requests and sleeps at most
    3000 ms for each chunk of the document. *)
Theorem pipeline_effort_bounded :
  length (requests (log_of convert)) <= MAX_RETRIES * chunkCount pageCount /\
  (sleepTotal (log_of convert)
     <= 3000 * N.of_nat (chunkCount pageCount))%N.
Proof.
  destruct (truthy (default [] apiKey)) eqn:Hkey.
  2:{ unfold convertPdfToCsv. rewrite Hkey. cbn [negb throw log_of fst].
      change (length (requests [])) with 0. change (sleepTotal []) with 0%N.
      lia. }
  destruct (Nat.eq_dec pageCount 0) as [Hz|Hn].
  { unfold convertPdfToCsv. rewrite Hkey, Hz.
    change (log_of _) with [Progress Loading].
    change (length (requests [Progress Loading])) with 0.
    change (sleepTotal [Progress Loading]) with 0%N. lia. }
  destruct (convert_running toLowerCase apiKey pageCount service Hkey Hn)
    as [-> _].
  change (?e :: ?l ++ ?k) with ([e] ++ l ++ k).
  rewrite !requests_app, !sleepTotal_app, !length_app.
  destruct (chunkLoop_effort (chunkCount pageCount) 0 pageCount [])
    as [Hr Hs]; [done|simpl; lia|].
  change (0 * CHUNK_SIZE) with 0 in Hr, Hs.
  assert (forall tail : list event,
            (tail = [] \/ tail = [Progress Combining] \/
             tail = [Progress Combining; Progress Correcting]) ->
            length (requests tail) = 0 /\ sleepTotal tail = 0%N) as Htail
    by (intros tail [-> | [-> | ->]]; done).
  destruct (Htail
    match result_of (loop pageCount 0 []) with
    | inl _ => []
    | inr fragments =>
        Progress Combining
        :: (if length (merge fragments) <? 2 then []
            else [Progress Correcting])
    end) as [-> ->].
  { destruct (result_of (loop pageCount 0 [])) as [?|fragments]; [auto|].
    destruct (length (merge fragments) <? 2); auto. }
  change (length (requests [Progress Loading])) with 0.
  change (sleepTotal [Progress Loading]) with 0%N.
  unfold MAX_RETRIES in *. lia.
Qed.

(** X11: the pipeline stops at the first chunk whose extraction fails: it
    throws that extraction's error, it has called the client for the
    chunks up to that one and for no later chunk, and it has announced
    neither the merge nor the correction. *)
Theorem pipeline_fails_fast (f : nat) (message : jsstring) :
  truthy (default [] apiKey) = true ->
  f < chunkCount pageCount ->
  (forall i, i < f -> exists text, result_of (extract i) = inr text) ->
  result_of (extract f) = inl message ->
  result_of convert = inl message /\
  extractionCalls (log_of convert) = chunkPages pageCount <$> seq 0 (S f) /\
  progressOf (log_of convert)
    = Loading :: (processingMessage pageCount <$> seq 0 (S f)).
Proof.
  intros Hkey Hf Hok Hfail.
  assert (pageCount <> 0) as Hn.
  { pose proof (chunkCount_spec pageCount f). lia. }
  destruct (convert_running toLowerCase apiKey pageCount service Hkey Hn)
    as [Hlog Hres].
  destruct (chunkLoop_first_failure (chunkCount pageCount) 0 pageCount []
              f message) as [Hl Hr];
    [done|simpl; lia|lia|lia|intros; apply Hok; lia|done|].
  change (0 * CHUNK_SIZE) with 0 in Hl, Hr.
  rewrite Nat.sub_0_r in Hl.
  rewrite Hres, Hlog, Hr, Hl, app_nil_r. split; [done|].
  change (?e :: concat ?l) with ([e] ++ concat l).
  rewrite extractionCalls_app, progressOf_app.
  by rewrite extractionCalls_chunkLogs, progressOf_chunkLogs.
Qed.

(** X12: when every extraction returns, the progress messages are the
    loading message, one processing message for each chunk in order, with
    the pages of the chunk counted from 1, and the combining message,
    followed by the correcting message exactly when a CSV is returned. *)
Theorem pipeline_progress :
  truthy (default [] apiKey) = true ->
  pageCount <> 0 ->
  (forall j, j < chunkCount pageCount ->
     exists text, result_of (extract j) = inr text) ->
  progressOf (log_of convert)
  = Loading :: (processingMessage pageCount <$> seq 0 (chunkCount pageCount))
    ++ Combining :: match result_of convert with
                    | inr _ => [Correcting]
                    | inl _ => []
                    end.
Proof.
  intros Hkey Hn Hok.
  destruct (convert_running toLowerCase apiKey pageCount service Hkey Hn)
    as [Hlog Hres].
  destruct (chunkLoop_all_returned toLowerCase pageCount service
              (chunkCount pageCount) 0 pageCount [])
    as [_ Hr]; [done|simpl; lia|intros; apply Hok; lia|].
  pose proof (chunkLoop_log_returned (chunkCount pageCount) 0 pageCount [])
    as Hl.
  change (0 * CHUNK_SIZE) with 0 in Hl, Hr.
  rewrite Hres, Hlog, Hr, Hl; [|done|simpl; lia|intros; apply Hok; lia].
  change (?e :: concat ?l ++ ?k) with ([e] ++ concat l ++ k).
  rewrite !progressOf_app, progressOf_chunkLogs.
  cbn [app progressOf omap list_omap]. do 2 f_equal.
  by destruct (length (merge _) <? 2).
Qed.

End PipelineEffort.

(* ===================================================================== *)
(** * Further properties: the merged lines and the CSV returned *)
(* ===================================================================== *)

Section LineLemmas.

Implicit Types (r : row) (c v : option jsstring).

Lemma elem_of_split sep s f x : f ∈ split sep s -> x ∈ f -> x ∈ s.
Proof.
  revert f. induction s as [|d s IH]; intros f Hf Hx; simpl in Hf.
  - apply list_elem_of_singleton in Hf as ->. done.
  - destruct (d =? sep)%N.
    + apply elem_of_cons in Hf as [->|Hf]; [by apply elem_of_nil in Hx|].
      right. by apply (IH f).
    + destruct (split sep s) as [|g gs] eqn:E.
      * apply list_elem_of_singleton in Hf as ->.
        apply list_elem_of_singleton in Hx as ->. left.
      * apply elem_of_cons in Hf as [->|Hf].
        -- apply elem_of_cons in Hx as [->|Hx]; [left|right].
           apply (IH g); [left|done].
        -- right. apply (IH f); [by right|done].
Qed.

Lemma nonBlank_elem line x : x ∈ line -> is_ws x = false -> nonBlank line.
Proof.
  intros Hx Hws E. apply trim_nil_iff in E.
  rewrite forallb_forall in E. apply list_elem_of_In in Hx.
  by rewrite (E x Hx) in Hws.
Qed.

Lemma nonBlank_has_elem line :
  nonBlank line -> exists x, x ∈ line /\ is_ws x = false.
Proof.
  intros H. destruct (trim line) as [|x t] eqn:E; [done|].
  exists x. split; [|by apply (trim_head line x t)].
  destruct (trim_decompose line) as (a & b & -> & _ & _). rewrite E.
  apply elem_of_app. right. left.
Qed.

(** The lines the splitter keeps are not blank and hold no line feed. *)
Lemma nonBlankLines_Forall fragment :
  Forall (fun line => nonBlank line /\ LF ∉ line) (nonBlankLines fragment).
Proof.
  apply Forall_forall. intros line Hline.
  apply list_elem_of_In in Hline. unfold nonBlankLines in Hline.
  apply filter_In in Hline as [Hin Hnb]. split.
  - unfold nonBlank. unfold str_eqb in Hnb.
    apply negb_true_iff, bool_decide_eq_false in Hnb. done.
  - apply list_elem_of_In in Hin.
    by apply (proj1 (Forall_forall _ _) (split_no_sep LF fragment)).
Qed.

Lemma Forall_of_sublist {A} (P : A -> Prop) (l1 l2 : list A) :
  l1 `sublist_of` l2 -> Forall P l2 -> Forall P l1.
Proof.
  induction 1 as [|x l1 l2 _ IH|x l1 l2 _ IH]; intros H; [done| |];
    inversion H; subst; [constructor|]; auto.
Qed.

Lemma keptOfLater_sublist fragment :
  keptOfLater fragment `sublist_of` nonBlankLines fragment /\
  length (nonBlankLines fragment) <= S (length (keptOfLater fragment)).
Proof.
  unfold keptOfLater. destruct (nonBlankLines fragment) as [|line0 others].
  - split; [done|simpl; lia].
  - destruct (isHeaderLine line0); split; simpl; try lia.
    + by apply sublist_cons.
    + done.
Qed.

Lemma concat_keptOfLater_sublist (later : list jsstring) :
  concat (keptOfLater <$> later)
    `sublist_of` concat (nonBlankLines <$> later) /\
  length (concat (nonBlankLines <$> later))
    <= length (concat (keptOfLater <$> later)) + length later.
Proof.
  induction later as [|f later [IH1 IH2]]; [done|].
  rewrite !fmap_cons. cbn [concat]. rewrite !length_app.
  destruct (keptOfLater_sublist f) as [H1 H2]. split.
  - by apply sublist_app.
  - cbn [length]. lia.
Qed.

Lemma keptOfLater_cases fragment :
  keptOfLater fragment = nonBlankLines fragment \/
  keptOfLater fragment = drop 1 (nonBlankLines fragment).
Proof.
  unfold keptOfLater. destruct (nonBlankLines fragment) as [|line0 others].
  - by left.
  - destruct (isHeaderLine line0); [by right|by left].
Qed.

(** X13: the merge never reorders or invents a line. Fragment by fragment,
    in order, the merged lines are the non-blank lines of the fragment:
    all of them for the first fragment, all of them or all but the first
    one for each later fragment. So they are a subsequence of the
    fragments' non-blank lines, and none of them is blank or holds a line
    feed. *)
Theorem merge_keeps_order (fragments : list jsstring) :
  (exists kept : list (list jsstring),
     merge fragments = concat kept /\
     Forall2 (fun fragment lines =>
                lines = nonBlankLines fragment \/
                lines = drop 1 (nonBlankLines fragment)) fragments kept /\
     head kept = nonBlankLines <$> head fragments) /\
  merge fragments `sublist_of` concat (nonBlankLines <$> fragments) /\
  Forall (fun line => nonBlank line /\ LF ∉ line) (merge fragments).
Proof.
  rewrite merge_mergedLines. destruct fragments as [|first later].
  { split; [by exists []|]. split; [done|constructor]. }
  cbn [mergedLines]. rewrite fmap_cons. cbn [concat].
  destruct (concat_keptOfLater_sublist later) as [H1 _].
  split; [|split].
  - exists (nonBlankLines first :: (keptOfLater <$> later)).
    split; [done|]. split; [|done].
    constructor; [by left|].
    clear. induction later as [|f later IH]; [constructor|].
    rewrite fmap_cons. constructor; [apply keptOfLater_cases|done].
  - by apply sublist_app.
  - apply Forall_app. split; [apply nonBlankLines_Forall|].
    assert (Forall (fun line => nonBlank line /\ LF ∉ line)
              (concat (nonBlankLines <$> later))) as Hall.
    { clear. induction later as [|f later IH]; [constructor|].
      rewrite fmap_cons. cbn [concat]. apply Forall_app.
      split; [apply nonBlankLines_Forall|done]. }
    by apply (Forall_of_sublist _ _ _ H1).
Qed.

End LineLemmas.

Section CsvShape.

Implicit Types (r p : row) (v : option jsstring).

(** A property of fields that holds of a hole goes through the step. *)
Lemma at_index_Forall (P : option jsstring -> Prop) r j :
  P None -> Forall P r -> P (at_index r j).
Proof.
  intros HN Hr. unfold at_index. destruct (r !! j) as [x|] eqn:E; [|done].
  by apply (proj1 (Forall_lookup _ _) Hr j x).
Qed.

Lemma assign_Forall (P : option jsstring -> Prop) r j v :
  P None -> P v -> Forall P r -> Forall P (assign r j v).
Proof.
  intros HN Hv. revert r. induction j as [|j IH]; intros [|x r] Hr; simpl.
  - by constructor.
  - inversion Hr; subst. by constructor.
  - constructor; [done|]. by apply IH.
  - inversion Hr; subst. constructor; [done|]. by apply IH.
Qed.

Lemma fillRow_Forall (P : option jsstring -> Prop) rn pt pa p (c : row) :
  P None -> Forall P p -> Forall P c -> Forall P (fillRow rn pt pa p c).
Proof.
  intros HN Hp Hc.
  destruct (fillRow_cases rn pt pa p c)
    as [->|(_ & _ & _ & _ & _ & _ & ->)]; [done|].
  apply assign_Forall; [done|by apply at_index_Forall|].
  apply assign_Forall; [done|by apply at_index_Forall|done].
Qed.

Lemma elem_of_join sep r x :
  x ∈ join sep r -> x ∈ sep \/ exists c, c ∈ r /\ x ∈ cell_text c.
Proof.
  induction r as [|c r IH]; [by intros ?%elem_of_nil|].
  destruct r as [|c' r].
  - intros Hx. right. exists c. split; [left|done].
  - rewrite join_cons by done. rewrite !elem_of_app.
    intros [Hx|[Hx|Hx]].
    + right. exists c. split; [left|done].
    + by left.
    + destruct (IH Hx) as [?|(d & Hd & Hxd)]; [by left|].
      right. exists d. split; [by right|done].
Qed.

Lemma elem_of_join_cell sep r j c x :
  r !! j = Some c -> x ∈ cell_text c -> x ∈ join sep r.
Proof.
  revert j. induction r as [|d r IH]; intros j Hj Hx; [done|].
  destruct r as [|d' r].
  - destruct j; [|done]. by injection Hj as ->.
  - rewrite join_cons by done. rewrite !elem_of_app. destruct j as [|j].
    + injection Hj as ->. by left.
    + right. right. by apply (IH j).
Qed.

Lemma join_LF_free r :
  Forall (fun c => LF ∉ cell_text c) r -> LF ∉ join [COMMA] r.
Proof.
  intros Hr Hin. apply elem_of_join in Hin as [Hin|(c & Hc & Hin)].
  - apply list_elem_of_singleton in Hin. done.
  - by apply (proj1 (Forall_forall _ _) Hr c).
Qed.

Lemma splitRow_LF_free line :
  LF ∉ line -> Forall (fun c => LF ∉ cell_text c) (splitRow line).
Proof.
  intros Hline. unfold splitRow. apply Forall_fmap, Forall_forall.
  intros f Hf Hin. apply Hline. by apply (elem_of_split COMMA line f).
Qed.

Lemma unquote_nonempty (c : option jsstring) :
  unquote c <> [] -> exists x, x ∈ cell_text c /\ is_ws x = false.
Proof.
  intros H. apply nonBlank_has_elem. intros E. apply H.
  destruct c as [s|]; [|done]. simpl in *.
  rewrite replace_all_quote, E. done.
Qed.

(** A corrected row is not blank when the row was not. *)
Lemma fillRow_nonBlank rn pt pa p (c : row) :
  nonBlank (join [COMMA] c) -> nonBlank (join [COMMA] (fillRow rn pt pa p c)).
Proof.
  intros Hc.
  destruct (fillRow_cases rn pt pa p c)
    as [->|(Hp & Hlen & Ht & Heq & _ & Hmax & ->)]; [done|].
  set (r' := assign (assign c pt (at_index p pt)) pa (at_index p pa)).
  assert (unquote (at_index r' rn) <> []) as Hrun.
  { unfold r'. destruct (Nat.eq_dec pa rn) as [->|Hpa].
    - rewrite at_index_assign_eq, <- Heq. intros E. by rewrite E in Ht.
    - rewrite at_index_assign_ne by done.
      destruct (Nat.eq_dec pt rn) as [->|Hpt].
      + rewrite at_index_assign_eq, <- Heq. intros E. by rewrite E in Ht.
      + rewrite at_index_assign_ne by done. intros E. by rewrite E in Ht. }
  destruct (unquote_nonempty _ Hrun) as (x & Hx & Hws).
  apply (nonBlank_elem _ x); [|done].
  apply (elem_of_join_cell [COMMA] r' rn (at_index r' rn)); [|done].
  unfold at_index. destruct (lookup_lt_is_Some_2 r' rn) as [y ->]; [|done].
  unfold r'. rewrite !length_assign. lia.
Qed.

Lemma fillRows_lines rn pt pa p (rows : list row) :
  Forall (fun c => LF ∉ cell_text c) p ->
  Forall (fun r => Forall (fun c => LF ∉ cell_text c) r
                   /\ nonBlank (join [COMMA] r)) rows ->
  Forall (fun line => nonBlank line /\ LF ∉ line)
    (join [COMMA] <$> fillRows rn pt pa p rows).
Proof.
  intros Hp Hrows. revert p Hp.
  induction Hrows as [|c rows [Hc Hnb] _ IH]; intros p Hp; [constructor|].
  cbn [fillRows]. rewrite fmap_cons.
  assert (Forall (fun c => LF ∉ cell_text c) (fillRow rn pt pa p c)) as Hf
    by (apply fillRow_Forall; [apply not_elem_of_nil|done|done]).
  constructor; [|by apply IH].
  split; [by apply fillRow_nonBlank|by apply join_LF_free].
Qed.

(** The corrector keeps lines that are not blank and hold no line feed
    that way. *)
Lemma applyFillDownLogic_lines (lines : list jsstring) :
  Forall (fun line => nonBlank line /\ LF ∉ line) lines ->
  Forall (fun line => nonBlank line /\ LF ∉ line) (applyFillDownLogic lines).
Proof.
  intros Hall. destruct lines as [|line0 rest]; [done|].
  destruct rest as [|line1 rest]; [done|].
  destruct (columns line0) as [[[rn pt] pa]|] eqn:Hcols.
  2:{ by rewrite applyFillDownLogic_not_found. }
  rewrite (applyFillDownLogic_found line0 (line1 :: rest) rn pt pa) by done.
  inversion Hall as [|? ? H0 Hrest]; subst.
  inversion Hrest as [|? ? [Hnb1 Hlf1] Hrest']; subst.
  constructor; [done|]. rewrite fmap_cons. cbn [fillAll]. rewrite fmap_cons.
  rewrite join_splitRow. constructor; [done|].
  apply fillRows_lines; [by apply splitRow_LF_free|].
  apply Forall_fmap, Forall_forall. intros line Hline.
  pose proof (proj1 (Forall_forall _ _) Hrest' line Hline) as [Hnb Hlf].
  cbn. rewrite join_splitRow. split; [by apply splitRow_LF_free|done].
Qed.

Lemma split_join_lines (lines : list jsstring) :
  lines <> [] -> Forall (fun line => LF ∉ line) lines ->
  split LF (join [LF] (Some <$> lines)) = lines.
Proof.
  intros Hne Hall. rewrite split_join.
  - rewrite <- list_fmap_compose. by rewrite list_fmap_id.
  - by destruct lines.
  - by apply Forall_fmap.
Qed.

Lemma nonBlankLines_of_lines (lines : list jsstring) :
  lines <> [] ->
  Forall (fun line => nonBlank line /\ LF ∉ line) lines ->
  nonBlankLines (join [LF] (Some <$> lines)) = lines.
Proof.
  intros Hne Hall. unfold nonBlankLines. rewrite split_join_lines; [|done|].
  - apply forallb_filter_id, forallb_forall. intros line Hline%list_elem_of_In.
    destruct (proj1 (Forall_forall _ _) Hall line Hline) as [Hnb _].
    unfold str_eqb. by rewrite bool_decide_eq_false_2.
  - eapply Forall_impl; [exact Hall|]. by intros line [_ ?].
Qed.

Variable toLowerCase : jsstring -> jsstring.
Variable apiKey : option jsstring.
Variable pageCount : nat.
Variable service : nat -> nat -> attempt_result.

#[local] Abbreviation loop := (chunkLoop toLowerCase pageCount service).
#[local] Abbreviation convert :=
  (convertPdfToCsv toLowerCase apiKey pageCount service).

(** X14: a CSV that the pipeline returns splits at its line feeds into
    the corrected merged lines: two lines or more, as many as were merged,
    none of them blank, so that the same line splitter reads it back
    line for line. *)
Theorem pipeline_csv_lines (csv : jsstring) :
  result_of convert = inr csv ->
  exists fragments,
    result_of (loop pageCount 0 []) = inr fragments /\
    split LF csv = applyFillDownLogic (merge fragments) /\
    2 <= length (split LF csv) /\
    length (split LF csv) = length (merge fragments) /\
    Forall nonBlank (split LF csv) /\
    nonBlankLines csv = split LF csv.
Proof.
  intros H.
  destruct (truthy (default [] apiKey)) eqn:Hkey.
  2:{ unfold convertPdfToCsv in H. by rewrite Hkey in H. }
  destruct (Nat.eq_dec pageCount 0) as [Hz|Hn].
  { unfold convertPdfToCsv in H. by rewrite Hkey, Hz in H. }
  destruct (convert_running toLowerCase apiKey pageCount service Hkey Hn)
    as [_ Hr].
  rewrite Hr in H.
  destruct (result_of (loop pageCount 0 [])) as [err|fragments]; [done|].
  destruct (Nat.ltb_spec (length (merge fragments)) 2) as [|Hlen]; [done|].
  injection H as <-. exists fragments. split; [done|].
  set (lines := applyFillDownLogic (merge fragments)).
  assert (length lines = length (merge fragments)) as Hsame.
  { unfold lines. destruct (merge fragments) as [|line0 rest]; [done|].
    destruct rest as [|line1 rest]; [done|].
    destruct (columns line0) as [[[rn pt] pa]|] eqn:Hcols.
    - rewrite (applyFillDownLogic_found line0 (line1 :: rest) rn pt pa)
        by done.
      cbn [length]. by rewrite length_fmap, length_fillAll, length_fmap.
    - by rewrite applyFillDownLogic_not_found. }
  assert (Forall (fun line => nonBlank line /\ LF ∉ line) lines) as Hall.
  { apply applyFillDownLogic_lines.
    rewrite merge_mergedLines. destruct fragments as [|first later];
      [constructor|].
    cbn [mergedLines]. apply Forall_app. split; [apply nonBlankLines_Forall|].
    destruct (concat_keptOfLater_sublist later) as [Hsub _].
    apply (Forall_of_sublist _ _ _ Hsub).
    clear. induction later as [|f later IH]; [constructor|].
    rewrite fmap_cons. cbn [concat]. apply Forall_app.
    split; [apply nonBlankLines_Forall|done]. }
  assert (lines <> []) as Hne.
  { intros E. rewrite E in Hsame. simpl in Hsame. lia. }
  rewrite nonBlankLines_of_lines by done.
  rewrite split_join_lines; [|done|].
  2:{ eapply Forall_impl; [exact Hall|]. by intros line [_ ?]. }
  repeat split; try done; try lia.
  eapply Forall_impl; [exact Hall|]. by intros line [? _].
Qed.

End CsvShape.

Section MoreSampleRuns.

Import Samples MergeSamples PipelineSamples PipelineViews.

Lemma client_text_trimmed_witness : trim (js "A,1") = js "A,1".
Proof.
  apply (client_text_trimmed asciiLowerCase flakyService [0] (js "A,1")).
  vm_compute. reflexivity.
Defined.

Lemma pipeline_fails_fast_witness :
  result_of (convertPdfToCsv asciiLowerCase sampleKey 45 failingSecondChunk)
    = inl ExtractionFailedError /\
  extractionCalls
    (log_of (convertPdfToCsv asciiLowerCase sampleKey 45 failingSecondChunk))
    = [seq 0 20; seq 20 20].
Proof.
  destruct (pipeline_fails_fast asciiLowerCase sampleKey 45 failingSecondChunk
              1 ExtractionFailedError) as (Hres & Hcalls & _).
  - reflexivity.
  - vm_compute. lia.
  - intros i Hi. destruct i as [|i]; [|lia]. eexists. reflexivity.
  - vm_compute. reflexivity.
  - split; [exact Hres|]. rewrite Hcalls. vm_compute. reflexivity.
Defined.

Lemma pipeline_progress_witness :
  progressOf
    (log_of (convertPdfToCsv asciiLowerCase sampleKey 45 steadyService))
  = [Loading; Processing 1 20 45; Processing 21 40 45; Processing 41 45 45;
     Combining; Correcting].
Proof.
  rewrite (pipeline_progress asciiLowerCase sampleKey 45 steadyService).
  - vm_compute. reflexivity.
  - reflexivity.
  - discriminate.
  - intros j _. eexists. reflexivity.
Defined.

Lemma pipeline_csv_lines_witness :
  exists csv fragments,
    result_of (convertPdfToCsv asciiLowerCase sampleKey 45 steadyService)
      = inr csv /\
    split LF csv = applyFillDownLogic (merge fragments) /\
    2 <= length (split LF csv).
Proof.
  eexists.
  destruct (pipeline_csv_lines asciiLowerCase sampleKey 45 steadyService _
              eq_refl) as (fragments & _ & Hsplit & Hlen & _).
  exists fragments. split; [reflexivity|]. split; [exact Hsplit|exact Hlen].
Defined.

End MoreSampleRuns.

(* ===================================================================== *)
(** * Further properties: base64 *)
(* ===================================================================== *)

(** Linear arithmetic with division and remainder by constants on [N]. *)
Ltac lia_divmod := zify; Z.to_euclidean_division_equations; lia.

Section Base64Proofs.

(** Induction over a list three elements at a time. *)
Lemma list_ind3 {A} (P : list A -> Prop) :
  P [] -> (forall a, P [a]) -> (forall a b, P [a; b]) ->
  (forall a b c rest, P rest -> P (a :: b :: c :: rest)) ->
  forall l, P l.
Proof.
  intros H0 H1 H2 H3 l.
  assert (forall n l, length l <= n -> P l) as Hn.
  { clear l. induction n as [|n IH]; intros l Hl.
    - destruct l; [done|simpl in Hl; lia].
    - destruct l as [|a [|b [|c rest]]]; auto.
      apply H3, IH. simpl in Hl. lia. }
  by apply (Hn (length l)).
Qed.

Lemma b64val_b64char v : (v < 64)%N -> b64val (b64char v) = Some v.
Proof.
  intros Hv. unfold b64char, b64val.
  repeat match goal with
         | |- context [(?x <? ?y)%N] => destruct (N.ltb_spec x y)
         | |- context [(?x <=? ?y)%N] => destruct (N.leb_spec x y)
         | |- context [(?x =? ?y)%N] => destruct (N.eqb_spec x y)
         | _ => progress cbn [andb]
         end; try (f_equal; lia); try lia.
Qed.

Lemma b64char_plain v :
  b64char v <> PAD /\ is_ascii_ws (b64char v) = false.
Proof.
  unfold b64char, PAD, is_ascii_ws.
  repeat match goal with
         | |- context [(?x <? ?y)%N] => destruct (N.ltb_spec x y)
         | |- context [(?x =? ?y)%N] => destruct (N.eqb_spec x y)
         | _ => progress cbn [orb]
         end; split; try done; try lia.
Qed.

Lemma sextets_lt bytes :
  isBytes bytes -> Forall (fun v => (v < 64)%N) (sextets bytes).
Proof.
  unfold isBytes. induction bytes as [|a|a b|a b c rest IH] using list_ind3;
    intros H; cbn [sextets].
  - constructor.
  - inversion H; subst. repeat constructor; lia_divmod.
  - inversion H as [|? ? Ha H']; subst. inversion H'; subst.
    repeat constructor; lia_divmod.
  - inversion H as [|? ? Ha H']; subst.
    inversion H' as [|? ? Hb H'']; subst.
    inversion H'' as [|? ? Hc Hrest]; subst.
    repeat (constructor; [lia_divmod|]). by apply IH.
Qed.

Lemma b64bytes_sextets bytes : isBytes bytes -> b64bytes (sextets bytes) = bytes.
Proof.
  unfold isBytes. induction bytes as [|a|a b|a b c rest IH] using list_ind3;
    intros H; cbn [sextets b64bytes].
  - done.
  - inversion H; subst. f_equal. lia_divmod.
  - inversion H as [|? ? Ha H']; subst. inversion H'; subst.
    f_equal; [|f_equal]; lia_divmod.
  - inversion H as [|? ? Ha H']; subst.
    inversion H' as [|? ? Hb H'']; subst.
    inversion H'' as [|? ? Hc Hrest]; subst.
    rewrite IH by done. f_equal; [|f_equal; [|f_equal]]; lia_divmod.
Qed.

Lemma padding_add3 n : padding (S (S (S n))) = padding n.
Proof.
  unfold padding. replace (S (S (S n))) with (n + 1 * 3) by lia.
  by rewrite Nat.Div0.mod_add.
Qed.

Lemma b64encode_sextets bytes :
  b64encode bytes = (b64char <$> sextets bytes) ++ padding (length bytes).
Proof.
  induction bytes as [|a|a b|a b c rest IH] using list_ind3; try done.
  cbn [b64encode sextets length]. rewrite padding_add3, IH. done.
Qed.

Lemma length_sextets bytes :
  (length (sextets bytes) + length (padding (length bytes))) mod 4 = 0 /\
  length (sextets bytes) mod 4 <> 1 /\
  length (sextets bytes) + length (padding (length bytes))
    = 4 * ((length bytes + 2) / 3).
Proof.
  induction bytes as [|a|a b|a b c rest (IH1 & IH2 & IH3)] using list_ind3;
    try (by vm_compute).
  cbn [sextets length]. rewrite padding_add3.
  replace (S (S (S (S (length (sextets rest)))))
           + length (padding (length rest)))
    with (length (sextets rest) + length (padding (length rest)) + 1 * 4)
    by lia.
  replace (S (S (S (S (length (sextets rest))))))
    with (length (sextets rest) + 1 * 4) by lia.
  rewrite !Nat.Div0.mod_add. split; [done|]. split; [done|].
  rewrite IH3.
  replace (S (S (S (length rest))) + 2) with (length rest + 2 + 1 * 3) by lia.
  rewrite Nat.div_add by lia. lia.
Qed.

Lemma b64values_chars (vs : list N) :
  Forall (fun v => (v < 64)%N) vs -> b64values (b64char <$> vs) = Some vs.
Proof.
  induction 1 as [|v vs Hv _ IH]; [done|].
  rewrite fmap_cons. cbn [b64values]. by rewrite b64val_b64char, IH.
Qed.

Lemma dropPadding_padded (l : jsstring) :
  Forall (fun c => c <> PAD) l ->
  dropPadding l = l /\ dropPadding (l ++ [PAD]) = l /\
  dropPadding (l ++ [PAD; PAD]) = l.
Proof.
  intros Hl. unfold dropPadding. rewrite !reverse_app.
  change (reverse [PAD]) with [PAD]. change (reverse [PAD; PAD]) with [PAD; PAD].
  cbn [app]. rewrite !N.eqb_refl.
  destruct (reverse l) as [|p rest] eqn:E.
  - apply (f_equal reverse) in E. rewrite reverse_involutive in E.
    subst l. done.
  - assert (p <> PAD) as Hp.
    { apply (proj1 (Forall_forall _ _) Hl). apply elem_of_reverse.
      rewrite E. left. }
    apply N.eqb_neq in Hp. rewrite Hp.
    rewrite <- E, reverse_involutive. by destruct rest.
Qed.

Lemma appendBinary_spec (rest pre : list N) (binary : jsstring) :
  appendBinary (length rest) (length pre) (pre ++ rest) binary
  = binary ++ (fromCharCode <$> rest).
Proof.
  revert pre binary. induction rest as [|b rest IH]; intros pre binary.
  - simpl. by rewrite app_nil_r.
  - cbn [appendBinary length]. rewrite list_lookup_middle by done.
    cbn [default]. replace (pre ++ b :: rest) with ((pre ++ [b]) ++ rest)
      by (by rewrite <- app_assoc).
    replace (S (length pre)) with (length (pre ++ [b]))
      by (rewrite length_app; simpl; lia).
    rewrite IH, fmap_cons. by rewrite <- app_assoc.
Qed.

Lemma fillBytes_spec (rest pre : jsstring) (done_ : list N) :
  length done_ = length pre ->
  fillBytes (length rest) (length pre) (pre ++ rest)
    (done_ ++ replicate (length rest) 0%N)
  = done_ ++ (toUint8 <$> rest).
Proof.
  revert pre done_. induction rest as [|c rest IH]; intros pre done_ Hlen.
  - done.
  - cbn [fillBytes length replicate]. unfold charCodeAt.
    rewrite list_lookup_middle by done. cbn [default id].
    rewrite insert_app_r_alt by lia.
    replace (length pre - length done_) with 0 by lia.
    cbn [insert list_insert].
    replace (pre ++ c :: rest) with ((pre ++ [c]) ++ rest)
      by (by rewrite <- app_assoc).
    replace (S (length pre)) with (length (pre ++ [c]))
      by (rewrite length_app; simpl; lia).
    replace (done_ ++ toUint8 c :: replicate (length rest) 0%N)
      with ((done_ ++ [toUint8 c]) ++ replicate (length rest) 0%N)
      by (by rewrite <- app_assoc).
    rewrite IH; [|rewrite !length_app; simpl; lia].
    rewrite fmap_cons. by rewrite <- app_assoc.
Qed.

Lemma isBytes_fmap_id (f : N -> N) (bytes : list N) :
  (forall b, (b < 256)%N -> f b = b) -> isBytes bytes -> f <$> bytes = bytes.
Proof.
  intros Hf. induction 1 as [|b bytes Hb _ IH]; [done|].
  rewrite fmap_cons. by rewrite Hf, IH.
Qed.

Lemma atob_b64encode (bytes : list N) :
  isBytes bytes -> atob (b64encode bytes) = Some bytes.
Proof.
  intros Hb. unfold atob. rewrite b64encode_sextets.
  set (core := b64char <$> sextets bytes).
  assert (Forall (fun c => c <> PAD /\ is_ascii_ws c = false) core) as Hcore.
  { apply Forall_fmap, Forall_forall. intros v _. apply b64char_plain. }
  assert (List.filter (fun c => negb (is_ascii_ws c))
            (core ++ padding (length bytes)) = core ++ padding (length bytes))
    as ->.
  { apply forallb_filter_id. rewrite forallb_app. apply andb_true_intro. split.
    - apply forallb_forall. intros c Hc%list_elem_of_In.
      destruct (proj1 (Forall_forall _ _) Hcore c Hc) as [_ ->]. done.
    - unfold padding. by destruct (length bytes mod 3) as [|[|?]]. }
  destruct (length_sextets bytes) as (Hmod & Hne & _).
  assert (length (core ++ padding (length bytes)) mod 4 = 0) as ->
    by (rewrite length_app; unfold core; by rewrite length_fmap).
  cbn [Nat.eqb].
  assert (dropPadding (core ++ padding (length bytes)) = core) as ->.
  { destruct (dropPadding_padded core) as (H0 & H1 & H2).
    { eapply Forall_impl; [exact Hcore|]. by intros c [? _]. }
    unfold padding. destruct (length bytes mod 3) as [|[|?]];
      [by rewrite app_nil_r|done|done]. }
  assert ((length core mod 4 =? 1) = false) as ->
    by (unfold core; rewrite length_fmap; by apply Nat.eqb_neq).
  unfold core. rewrite b64values_chars by by apply sextets_lt.
  cbn [fmap option_fmap option_map]. by rewrite b64bytes_sextets.
Qed.

(** X15: a byte array is always encoded, [btoa] never rejecting what
    [uint8ArrayToBase64] hands it, into four characters of base64 text for
    every three bytes begun, and [base64ToUint8Array] decodes that text to
    the same bytes. *)
Theorem base64_round_trip (bytes : list N) :
  isBytes bytes ->
  exists base64,
    uint8ArrayToBase64 bytes = Some base64 /\
    base64ToUint8Array base64 = Some bytes /\
    length base64 = 4 * ((length bytes + 2) / 3) /\
    Forall isBase64Char base64.
Proof.
  intros Hb. exists (b64encode bytes).
  assert (appendBinary (length bytes) 0 bytes [] = bytes) as Hbin.
  { pose proof (appendBinary_spec bytes [] []) as H.
    cbn [app length] in H. rewrite H.
    apply isBytes_fmap_id; [|done]. intros b Hlt. unfold fromCharCode.
    apply N.mod_small. lia. }
  split; [|split; [|split]].
  - unfold uint8ArrayToBase64. cbv zeta. rewrite Hbin. unfold btoa.
    replace (forallb _ bytes) with true; [done|]. symmetry.
    apply forallb_forall. intros b Hin%list_elem_of_In.
    apply N.leb_le.
    pose proof (proj1 (Forall_forall _ _) Hb b Hin) as Hlt.
    cbv beta in Hlt. lia.
  - unfold base64ToUint8Array. rewrite atob_b64encode by done. cbv zeta.
    f_equal. pose proof (fillBytes_spec bytes [] [] eq_refl) as H.
    cbn [app length] in H. rewrite H.
    apply isBytes_fmap_id; [|done]. intros b Hlt. unfold toUint8.
    by apply N.mod_small.
  - rewrite b64encode_sextets, length_app, length_fmap.
    by destruct (length_sextets bytes) as (_ & _ & ->).
  - rewrite b64encode_sextets. apply Forall_app. split.
    + apply Forall_fmap.
      eapply Forall_impl; [apply (sextets_lt bytes Hb)|].
      intros v Hv. left. cbn. by rewrite b64val_b64char.
    + unfold padding. destruct (length bytes mod 3) as [|[|?]];
        repeat constructor; by right.
Qed.

End Base64Proofs.

Lemma base64_round_trip_witness :
  exists base64,
    uint8ArrayToBase64 [0; 255; 128; 7]%N = Some base64 /\
    base64ToUint8Array base64 = Some [0; 255; 128; 7]%N.
Proof.
  destruct (base64_round_trip [0; 255; 128; 7]%N) as (base64 & He & Hd & _).
  - repeat constructor.
  - exists base64. split; [exact He|exact Hd].
Defined.
